(** * ssm_cache.cache: a verified model of the SSM caching wrapper

    Shallow embedding of [src/ssm_cache/cache.py].  Python objects live in
    an explicit store (they are shared and mutated in place), exceptions are
    a constructor of the result type, and the remote client and the clock
    are fields of the state that the methods read. *)

From Stdlib Require Import ZArith String List Lia Bool.
From stdpp Require Import base option list gmap strings.

Local Open Scope string_scope.
Local Open Scope Z_scope.

(** ** Python values, exceptions and results *)

(** The values that reach the constructors through the positional and
    keyword arguments: [None], booleans, integers and strings. *)
Inductive pyval : Type :=
  | PNone
  | PBool (b : bool)
  | PInt (z : Z)
  | PStr (s : string).

(** Python truth value testing, as used by [not x], [x or y] and [any]. *)
Definition truthy (v : pyval) : bool :=
  match v with
  | PNone => false
  | PBool b => b
  | PInt z => negb (z =? 0)
  | PStr s => negb (String.eqb s "")
  end.

(** [x or y] *)
Definition py_or (x y : pyval) : pyval := if truthy x then x else y.

Inductive exn : Type :=
  | ValueError (msg : string)
  | TypeError
  | KeyError (key : string)
  | OverflowError
  | NotImplementedError
  | InvalidParam (msg : string)       (* class InvalidParam(Exception) *)
  | ClientError (code : string)       (* e.response['Error']['Code'] *)
  | OtherError (tag : string).        (* any other exception, by name *)

(** The outcome of running a piece of Python: a value, a raised exception,
    or [Undef] where the model says nothing about Python: the state is
    one that no run reaches (a dangling object reference), or the input
    lies outside the model (a parameter name that is neither falsy nor a
    string). *)
Inductive result (A : Type) : Type :=
  | Ok (a : A)
  | Raise (e : exn)
  | Undef.
Arguments Ok {A} a.
Arguments Raise {A} e.
Arguments Undef {A}.

Definition result_bind {A B} (r : result A) (k : A -> result B) : result B :=
  match r with
  | Ok a => k a
  | Raise e => Raise e
  | Undef => Undef
  end.

(** ** [datetime] and [timedelta]

    A [datetime] is the number of microseconds since [datetime.min]
    (0001-01-01T00:00:00); a [timedelta] is a number of microseconds.
    Both types are bounded in Python and raise [OverflowError] outside
    their range. *)
Module Datetime.

(** [datetime.max] is 9999-12-31T23:59:59.999999, ordinal day 3652059. *)
Definition datetime_max : Z := 3652059 * 86400000000 - 1.

(** [timedelta.min] is -999999999 days, [timedelta.max] is 999999999
    days, 23:59:59.999999. *)
Definition timedelta_min : Z := - 999999999 * 86400000000.
Definition timedelta_max : Z := 1000000000 * 86400000000 - 1.

(** [timedelta(seconds=s)] for an integer [s] *)
Definition timedelta_of_seconds (s : Z) : result Z :=
  let us := s * 1000000 in
  if (timedelta_min <=? us) && (us <=? timedelta_max)
  then Ok us else Raise OverflowError.

(** [timedelta(seconds=v)]: booleans are integers, [None] and strings
    are rejected. *)
Definition timedelta (v : pyval) : result Z :=
  match v with
  | PInt z => timedelta_of_seconds z
  | PBool b => timedelta_of_seconds (Z.b2z b)
  | PNone | PStr _ => Raise TypeError
  end.

(** [t + d] for a datetime [t] and a timedelta [d] *)
Definition add (t d : Z) : result Z :=
  let r := t + d in
  if (0 <=? r) && (r <=? datetime_max)
  then Ok r else Raise OverflowError.

End Datetime.

(** ** class Refreshable *)

Record Refreshable : Type := mkRefreshable {
  _last_refresh_time : option Z;
  _max_age : pyval;
  _max_age_delta : Z
}.

(** [Refreshable.__init__(self, max_age)] *)
Definition Refreshable__init__ (max_age : pyval) : result Refreshable :=
  result_bind (Datetime.timedelta (py_or max_age (PInt 0))) (fun delta =>
  Ok {| _last_refresh_time := None;
        _max_age := max_age;
        _max_age_delta := delta |}).

(** [Refreshable._should_refresh(self)], with [utcnow] the value that
    [datetime.utcnow()] returns.  A [datetime] object is always truthy,
    so [not self._last_refresh_time] tests for [None]. *)
Definition Refreshable__should_refresh (self : Refreshable) (utcnow : Z)
  : result bool :=
  if negb (truthy (_max_age self)) then Ok false
  else match _last_refresh_time self with
       | None => Ok true
       | Some last =>
           result_bind (Datetime.add last (_max_age_delta self)) (fun due =>
           Ok (due <? utcnow))
       end.

(** [self._last_refresh_time = datetime.utcnow()] *)
Definition mark_refreshed (self : Refreshable) (utcnow : Z) : Refreshable :=
  {| _last_refresh_time := Some utcnow;
     _max_age := _max_age self;
     _max_age_delta := _max_age_delta self |}.

(** ** The object store, the remote client and the state monad *)

(** Object references. *)
Definition loc : Type := nat.

(** An instance of [class SSMParameter(Refreshable)]: the inherited
    attributes, then its own.  [_group] is a reference to the owning
    group object, or [None]. *)
Record SSMParameter : Type := mkSSMParameter {
  p_refreshable : Refreshable;
  _name : string;
  _value : option string;
  _with_decryption : pyval;
  _group : option loc
}.

(** An instance of [class SSMParameterGroup(Refreshable)].  The dict
    [_parameters] is kept in insertion order, the order in which
    [six.itervalues] walks it; its values are references to the member
    objects.  ([g_with_decryption] is the group's [_with_decryption].) *)
Record SSMParameterGroup : Type := mkSSMParameterGroup {
  g_refreshable : Refreshable;
  g_with_decryption : pyval;
  _parameters : list (string * loc)
}.

(** [response] of [get_parameters]: the [(Name, Value)] items of
    [response['Parameters']] and the names in
    [response['InvalidParameters']]. *)
Record GetParametersResponse : Type := mkResponse {
  Parameters : list (string * string);
  InvalidParameters : list string
}.

(** The boto3 client, an external collaborator: [get_parameter] answers
    with [response['Parameter']['Value']], [get_parameters] with a
    response; either may raise. *)
Record SSMClient : Type := mkSSMClient {
  get_parameter : string -> pyval -> result string;
  get_parameters : list string -> bool -> result GetParametersResponse
}.

(** The requests sent to the client, in order. *)
Inductive request : Type :=
  | GetParameter (Name : string) (WithDecryption : pyval)
  | GetParameters (Names : list string) (WithDecryption : bool).

(** What a method reads from its environment: the class attribute
    [Refreshable.ssm_client] and the clock behind [datetime.utcnow()]. *)
Record Env : Type := mkEnv {
  ssm_client : SSMClient;
  utcnow : Z
}.

(** The mutable state: both kinds of objects, the next free reference
    and the trace of remote requests. *)
Record State : Type := mkState {
  parameters : gmap loc SSMParameter;
  groups : gmap loc SSMParameterGroup;
  next_loc : loc;
  calls : list request
}.

Definition empty_state : State :=
  {| parameters := ∅; groups := ∅; next_loc := 0%nat; calls := [] |}.

(** Computations over a state [S]: an exception keeps the mutations made
    before it was raised. *)
Definition M (S A : Type) : Type := Env -> S -> S * result A.

Definition ret {S A} (a : A) : M S A := fun _ s => (s, Ok a).

Definition raise {S A} (e : exn) : M S A := fun _ s => (s, Raise e).

Definition lift {S A} (r : result A) : M S A := fun _ s => (s, r).

Definition bind {S A B} (c : M S A) (k : A -> M S B) : M S B :=
  fun env s =>
    match c env s with
    | (s', Ok a) => k a env s'
    | (s', Raise e) => (s', Raise e)
    | (s', Undef) => (s', Undef)
    end.

Notation "x <-- c ;; k" := (bind c (fun x => k))
  (at level 100, c at next level, right associativity).
Notation "c ;;; k" := (bind c (fun _ => k))
  (at level 100, right associativity).

Definition ask {S} : M S Env := fun env s => (s, Ok env).

(** Attribute access on the stored objects. *)
Definition lookup_parameter (l : loc) : M State SSMParameter :=
  fun _ s => (s, match parameters s !! l with Some p => Ok p | None => Undef end).

Definition lookup_group (l : loc) : M State SSMParameterGroup :=
  fun _ s => (s, match groups s !! l with Some g => Ok g | None => Undef end).

Definition update_parameter (l : loc) (f : SSMParameter -> SSMParameter)
  : M State unit :=
  fun _ s =>
    match parameters s !! l with
    | Some p =>
        ({| parameters := <[l := f p]> (parameters s); groups := groups s;
            next_loc := next_loc s; calls := calls s |}, Ok tt)
    | None => (s, Undef)
    end.

Definition update_group (l : loc) (f : SSMParameterGroup -> SSMParameterGroup)
  : M State unit :=
  fun _ s =>
    match groups s !! l with
    | Some g =>
        ({| parameters := parameters s; groups := <[l := f g]> (groups s);
            next_loc := next_loc s; calls := calls s |}, Ok tt)
    | None => (s, Undef)
    end.

Definition alloc_parameter (p : SSMParameter) : M State loc :=
  fun _ s =>
    ({| parameters := <[next_loc s := p]> (parameters s); groups := groups s;
        next_loc := S (next_loc s); calls := calls s |}, Ok (next_loc s)).

Definition alloc_group (g : SSMParameterGroup) : M State loc :=
  fun _ s =>
    ({| parameters := parameters s; groups := <[next_loc s := g]> (groups s);
        next_loc := S (next_loc s); calls := calls s |}, Ok (next_loc s)).

(** A call through [self.ssm_client]: the request is appended to the
    trace and the client's answer is the result. *)
Definition call_get_parameter (Name : string) (WithDecryption : pyval)
  : M State string :=
  fun env s =>
    ({| parameters := parameters s; groups := groups s; next_loc := next_loc s;
        calls := (calls s ++ [GetParameter Name WithDecryption])%list |},
     get_parameter (ssm_client env) Name WithDecryption).

Definition call_get_parameters (Names : list string) (WithDecryption : bool)
  : M State GetParametersResponse :=
  fun env s =>
    ({| parameters := parameters s; groups := groups s; next_loc := next_loc s;
        calls := (calls s ++ [GetParameters Names WithDecryption])%list |},
     get_parameters (ssm_client env) Names WithDecryption).

(** Field assignments. *)
Definition set_value (v : option string) (p : SSMParameter) : SSMParameter :=
  {| p_refreshable := p_refreshable p; _name := _name p; _value := v;
     _with_decryption := _with_decryption p; _group := _group p |}.

Definition set_group (g : option loc) (p : SSMParameter) : SSMParameter :=
  {| p_refreshable := p_refreshable p; _name := _name p; _value := _value p;
     _with_decryption := _with_decryption p; _group := g |}.

Definition set_p_refreshable (r : Refreshable) (p : SSMParameter) : SSMParameter :=
  {| p_refreshable := r; _name := _name p; _value := _value p;
     _with_decryption := _with_decryption p; _group := _group p |}.

Definition set_g_refreshable (r : Refreshable) (g : SSMParameterGroup)
  : SSMParameterGroup :=
  {| g_refreshable := r; g_with_decryption := g_with_decryption g;
     _parameters := _parameters g |}.

Definition set_parameters (d : list (string * loc)) (g : SSMParameterGroup)
  : SSMParameterGroup :=
  {| g_refreshable := g_refreshable g; g_with_decryption := g_with_decryption g;
     _parameters := d |}.

(** ** Python dicts in insertion order *)

(** [d[k]]; [None] stands for [KeyError]. *)
Fixpoint dict_get {V} (d : list (string * V)) (k : string) : option V :=
  match d with
  | [] => None
  | (k', v) :: d' => if String.eqb k' k then Some v else dict_get d' k
  end.

(** [d[k] = v]: an existing key keeps its position, a new key goes last. *)
Fixpoint dict_set {V} (k : string) (v : V) (d : list (string * V))
  : list (string * V) :=
  match d with
  | [] => [(k, v)]
  | (k', v') :: d' =>
      if String.eqb k' k then (k, v) :: d' else (k', v') :: dict_set k v d'
  end.

(** ** [_batch] *)

(** [iterable[lo:hi]] for non-negative bounds *)
Definition slice {A} (iterable : list A) (lo hi : nat) : list A :=
  take (hi - lo) (drop lo iterable).

(** The indices [range(start, stop, step)] walks through, for a positive
    [step]: at most [fuel] of them. *)
Fixpoint range_loop (fuel ndx stop step : nat) : list nat :=
  match fuel with
  | O => []
  | S fuel' =>
      if (ndx <? stop)%nat
      then ndx :: range_loop fuel' (ndx + step) stop step
      else []
  end.

(** [range(start, stop, step)] over the naturals; [stop - start] steps
    always reach [stop]. *)
Definition range (start stop step : nat) : result (list nat) :=
  if (step =? 0)%nat
  then Raise (ValueError "range() arg 3 must not be zero")
  else Ok (range_loop (stop - start) start stop step).

(** [_batch(iterable, n)], the batches the generator yields, in order. *)
Definition _batch {A} (iterable : list A) (n : nat) : result (list (list A)) :=
  let l := length iterable in
  result_bind (range 0 l n) (fun ndxs =>
  Ok (map (fun ndx => slice iterable ndx (Nat.min (ndx + n) l)) ndxs)).

(** ** Binding positional and keyword arguments to a signature *)

(** A signature lists the parameters after [self] with their defaults. *)
Definition signature : Type := list (string * option pyval).

Fixpoint bind_parameters (sig : signature) (args : list pyval)
    (kwargs : gmap string pyval) : result (list pyval) :=
  match sig with
  | [] => Ok []
  | (name, default) :: sig' =>
      match args with
      | a :: args' =>
          match kwargs !! name with
          | Some _ => Raise TypeError          (* multiple values *)
          | None =>
              result_bind (bind_parameters sig' args' kwargs) (fun vs =>
              Ok (a :: vs))
          end
      | [] =>
          match kwargs !! name, default with
          | Some v, _ | None, Some v =>
              result_bind (bind_parameters sig' [] kwargs) (fun vs =>
              Ok (v :: vs))
          | None, None => Raise TypeError      (* missing argument *)
          end
      end
  end.

Definition bind_arguments (sig : signature) (args : list pyval)
    (kwargs : gmap string pyval) : result (list pyval) :=
  if (length sig <? length args)%nat then Raise TypeError
  else if bool_decide (dom kwargs ⊆ list_to_set (map fst sig))
       then bind_parameters sig args kwargs
       else Raise TypeError.                   (* unexpected keyword *)

(** ** class SSMParameter: construction *)

(** [def __init__(self, param_name, max_age=None, with_decryption=True)] *)
Definition SSMParameter_signature : signature :=
  [("param_name", None); ("max_age", Some PNone);
   ("with_decryption", Some (PBool true))].

(** The body of [SSMParameter.__init__].  The model keeps names as
    strings: for a truthy name that is not a string, which Python
    accepts, it answers [Undef] and the properties below say nothing. *)
Definition SSMParameter__init__ (param_name max_age with_decryption : pyval)
  : result SSMParameter :=
  result_bind (Refreshable__init__ max_age) (fun base =>
  if negb (truthy param_name) then Raise (ValueError "Must specify name")
  else match param_name with
       | PStr s =>
           Ok {| p_refreshable := base; _name := s; _value := None;
                 _with_decryption := with_decryption; _group := None |}
       | _ => Undef
       end).

(** The call [SSMParameter] with [args] and [kwargs] unpacked: the object exists only if
    [__init__] returns. *)
Definition new_SSMParameter (args : list pyval) (kwargs : gmap string pyval)
  : M State loc :=
  vs <-- lift (bind_arguments SSMParameter_signature args kwargs) ;;
  match vs with
  | [param_name; max_age; with_decryption] =>
      p <-- lift (SSMParameter__init__ param_name max_age with_decryption) ;;
      alloc_parameter p
  | _ => lift Undef
  end.

(** ** class SSMParameterGroup *)

(** [def __init__(self, max_age=None, with_decryption=True)] *)
Definition SSMParameterGroup_signature : signature :=
  [("max_age", Some PNone); ("with_decryption", Some (PBool true))].

Definition SSMParameterGroup__init__ (max_age with_decryption : pyval)
  : result SSMParameterGroup :=
  result_bind (Refreshable__init__ max_age) (fun base =>
  Ok {| g_refreshable := base; g_with_decryption := with_decryption;
        _parameters := [] |}).

Definition new_SSMParameterGroup (args : list pyval)
    (kwargs : gmap string pyval) : M State loc :=
  vs <-- lift (bind_arguments SSMParameterGroup_signature args kwargs) ;;
  match vs with
  | [max_age; with_decryption] =>
      g <-- lift (SSMParameterGroup__init__ max_age with_decryption) ;;
      alloc_group g
  | _ => lift Undef
  end.

(** [SSMParameterGroup.parameter], with the positional arguments [args]
    and the keyword arguments [kwargs] *)
Definition SSMParameterGroup_parameter (self : loc) (args : list pyval)
    (kwargs : gmap string pyval) : M State loc :=
  match kwargs !! "max_age" with
  | Some _ =>
      raise (ValueError "max_age can't be set individually for grouped parameters")
  | None =>
      g <-- lookup_group self ;;
      let kwargs :=
        match kwargs !! "with_decryption" with
        | None => <["with_decryption" := g_with_decryption g]> kwargs
        | Some _ => kwargs
        end in
      parameter <-- new_SSMParameter args kwargs ;;
      update_parameter parameter (set_group (Some self)) ;;;
      p <-- lookup_parameter parameter ;;
      update_group self (fun g =>
        set_parameters (dict_set (_name p) parameter (_parameters g)) g) ;;;
      ret parameter
  end.

(** [self._parameters[item['Name']]._value = item['Value']] *)
Definition assign_item (self : loc) (item : string * string) : M State unit :=
  g <-- lookup_group self ;;
  match dict_get (_parameters g) (fst item) with
  | None => raise (KeyError (fst item))
  | Some l => update_parameter l (set_value (Some (snd item)))
  end.

(** [for item in response['Parameters']: ...] *)
Fixpoint for_items (self : loc) (items : list (string * string))
  : M State unit :=
  match items with
  | [] => ret tt
  | item :: items' => assign_item self item ;;; for_items self items'
  end.

(** [for name_batch in _batch(names, 10): ...], threading
    [invalid_names] *)
Fixpoint for_batches (self : loc) (with_decryption : bool)
    (batches : list (list string)) (invalid_names : list string)
  : M State (list string) :=
  match batches with
  | [] => ret invalid_names
  | name_batch :: batches' =>
      response <-- call_get_parameters name_batch with_decryption ;;
      let invalid_names := (invalid_names ++ InvalidParameters response)%list in
      for_items self (Parameters response) ;;;
      for_batches self with_decryption batches' invalid_names
  end.

(** [six.itervalues(self._parameters)], dereferenced *)
Fixpoint itervalues (refs : list loc) : M State (list SSMParameter) :=
  match refs with
  | [] => ret []
  | l :: refs' =>
      p <-- lookup_parameter l ;;
      ps <-- itervalues refs' ;;
      ret (p :: ps)
  end.

(** [SSMParameterGroup._refresh(self)] *)
Definition SSMParameterGroup__refresh (self : loc) : M State unit :=
  g <-- lookup_group self ;;
  ps <-- itervalues (map snd (_parameters g)) ;;
  let with_decryption := existsb (fun p => truthy (_with_decryption p)) ps in
  let names := map _name ps in
  batches <-- lift (_batch names 10) ;;
  invalid_names <-- for_batches self with_decryption batches [] ;;
  match invalid_names with
  | [] => ret tt
  | _ => raise (InvalidParam (String.concat "," invalid_names))
  end.

(** [Refreshable.refresh(self)] on a group *)
Definition SSMParameterGroup_refresh (self : loc) : M State unit :=
  SSMParameterGroup__refresh self ;;;
  env <-- ask ;;
  update_group self (fun g =>
    set_g_refreshable (mark_refreshed (g_refreshable g) (utcnow env)) g).

(** [Refreshable._should_refresh(self)] on a group *)
Definition SSMParameterGroup__should_refresh (self : loc) : M State bool :=
  g <-- lookup_group self ;;
  env <-- ask ;;
  lift (Refreshable__should_refresh (g_refreshable g) (utcnow env)).

(** ** class SSMParameter: methods *)

(** [try: c  except ClientError as e: h e] *)
Definition try_except_ClientError {S A} (c : M S A) (h : string -> M S A)
  : M S A :=
  fun env s =>
    match c env s with
    | (s', Raise (ClientError code)) => h code env s'
    | r => r
    end.

(** [SSMParameter._refresh(self)]; a group object is always truthy. *)
Definition SSMParameter__refresh (self : loc) : M State unit :=
  p <-- lookup_parameter self ;;
  match _group p with
  | Some g => SSMParameterGroup_refresh g
  | None =>
      try_except_ClientError
        (response <-- call_get_parameter (_name p) (_with_decryption p) ;;
         update_parameter self (set_value (Some response)))
        (fun code =>
           if String.eqb code "ParameterNotFound"
           then raise (InvalidParam (_name p))
           else raise (ClientError code))
  end.

(** [Refreshable.refresh(self)] on a parameter *)
Definition SSMParameter_refresh (self : loc) : M State unit :=
  SSMParameter__refresh self ;;;
  env <-- ask ;;
  update_parameter self (fun p =>
    set_p_refreshable (mark_refreshed (p_refreshable p) (utcnow env)) p).

(** [Refreshable._should_refresh(self)] on a parameter *)
Definition SSMParameter__should_refresh (self : loc) : M State bool :=
  p <-- lookup_parameter self ;;
  env <-- ask ;;
  lift (Refreshable__should_refresh (p_refreshable p) (utcnow env)).

(** The property [SSMParameter.name] *)
Definition SSMParameter_name (self : loc) : M State string :=
  p <-- lookup_parameter self ;;
  ret (_name p).

(** The property [SSMParameter.value] *)
Definition SSMParameter_value (self : loc) : M State (option string) :=
  p <-- lookup_parameter self ;;
  due <-- match _value p with
          | None => ret true
          | Some _ => SSMParameter__should_refresh self
          end ;;
  (if due : bool then SSMParameter_refresh self else ret tt) ;;;
  p' <-- lookup_parameter self ;;
  ret (_value p').

(** ** [SSMParameter.refresh_on_error] *)

(** What the wrapper does, as an observer sees it: the calls of the
    wrapped function with their arguments, the forced refresh and the
    call of the callback. *)
Inductive event : Type :=
  | CallFunc (args : list pyval) (kwargs : gmap string pyval)
  | ForceRefresh (self : loc)
  | CallCallback.

Section RefreshOnError.

(** [U] is the state of the application around the cache, [R] the type
    of what the wrapped function returns. *)
Context {U R : Type}.

(** The wrapped function and the callback run on the cache and the
    application state; the wrapper records its events next to them. *)
Definition Traced : Type := (State * U) * list event.

Definition emit (e : event) : M Traced unit :=
  fun _ st => ((fst st, (snd st ++ [e])%list), Ok tt).

Definition run_user {A} (c : M (State * U) A) : M Traced A :=
  fun env st =>
    let (s', r) := c env (fst st) in ((s', snd st), r).

Definition run_cache {A} (c : M State A) : M (State * U) A :=
  fun env st =>
    let (s', r) := c env (fst st) in ((s', snd st), r).

(** [try: c  except error_class: h]; [error_class e] tells whether [e]
    is an instance of the class. *)
Definition try_except {S A} (error_class : exn -> bool) (c h : M S A)
  : M S A :=
  fun env s =>
    match c env s with
    | (s', Raise e) => if error_class e then h env s' else (s', Raise e)
    | r => r
    end.

(** [wrapped], the function that
    [self.refresh_on_error(error_class, error_callback, retry_argument)(func)]
    returns.  [error_callback] is [Some] when it is callable. *)
Definition SSMParameter_refresh_on_error (self : loc)
    (error_class : exn -> bool)
    (error_callback : option (M (State * U) unit))
    (retry_argument : string)
    (func : list pyval -> gmap string pyval -> M (State * U) R)
    (args : list pyval) (kwargs : gmap string pyval) : M Traced R :=
  try_except error_class
    (emit (CallFunc args kwargs) ;;;
     run_user (func args kwargs))
    (emit (ForceRefresh self) ;;;
     run_user (run_cache (SSMParameter_refresh self)) ;;;
     match error_callback with
     | Some callback => emit CallCallback ;;; run_user callback
     | None => ret tt
     end ;;;
     let kwargs := <[retry_argument := PBool true]> kwargs in
     emit (CallFunc args kwargs) ;;;
     run_user (func args kwargs)).

End RefreshOnError.

(** The defaults of [refresh_on_error]: [error_class=Exception], which
    every exception of the model is an instance of, and
    [retry_argument='is_retry']. *)
Definition Exception (e : exn) : bool := true.
Definition default_retry_argument : string := "is_retry".

(** * Vocabulary of the properties *)

(** ** States that differ in one component *)

Definition with_parameters (m : gmap loc SSMParameter) (s : State) : State :=
  {| parameters := m; groups := groups s; next_loc := next_loc s;
     calls := calls s |}.

Definition with_calls (c : list request) (s : State) : State :=
  {| parameters := parameters s; groups := groups s; next_loc := next_loc s;
     calls := c |}.

(** ** What refreshing a group may change *)

(** The objects that the group at [self] refers to. *)
Definition members (s : State) (self : loc) : list loc :=
  match groups s !! self with
  | Some g => map snd (_parameters g)
  | None => []
  end.

(** From [s] to [s'] no object was created or deleted, no group changed,
    requests were only added to the trace, and nothing of a parameter
    changed but its cached value, and that for the objects in [touched]
    only. *)
Definition refreshes (touched : list loc) (s s' : State) : Prop :=
  groups s' = groups s /\ next_loc s' = next_loc s /\
  (exists requests, calls s' = (calls s ++ requests)%list) /\
  forall l : loc,
    match parameters s !! l, parameters s' !! l with
    | Some p, Some p' =>
        p' = set_value (_value p') p /\ (l ∉ touched -> p' = p)
    | None, None => True
    | _, _ => False
    end.

(** ** Well-formed groups and stores *)

(** The keys of the group's dict are pairwise distinct, as in any dict,
    and each key is the name of the object it maps to. *)
Definition group_wf (s : State) (g : SSMParameterGroup) : Prop :=
  NoDup (map fst (_parameters g)) /\
  Forall (fun kl => _name <$> parameters s !! snd kl = Some (fst kl))
         (_parameters g).

(** Every object lies below the next free reference. *)
Definition store_wf (s : State) : Prop :=
  map_Forall (fun (l : loc) (_ : SSMParameter) => (l < next_loc s)%nat)
             (parameters s) /\
  map_Forall (fun (l : loc) (_ : SSMParameterGroup) => (l < next_loc s)%nat)
             (groups s).

Definition state_wf (s : State) : Prop :=
  store_wf s /\
  map_Forall (fun (_ : loc) (g : SSMParameterGroup) => group_wf s g) (groups s).

#[global] Instance group_wf_dec (s : State) (g : SSMParameterGroup)
  : Decision (group_wf s g).
Proof. unfold group_wf. apply _. Defined.

#[global] Instance store_wf_dec (s : State) : Decision (store_wf s).
Proof. unfold store_wf. apply _. Defined.

#[global] Instance state_wf_dec (s : State) : Decision (state_wf s).
Proof. unfold state_wf. apply _. Defined.

(** ** The service as a store of values *)

(** A service that holds the values [remote] answers [get_parameters]
    with the values of the names it knows, in the order of the request,
    and lists the other names as invalid. *)
Definition respond (remote : string -> option string) (names : list string)
  : GetParametersResponse :=
  {| Parameters := omap (fun n => pair n <$> remote n) names;
     InvalidParameters := filter (fun n => remote n = None) names |}.

(** The client of [env] talks to such a service. *)
Definition answers (remote : string -> option string) (env : Env) : Prop :=
  forall names with_decryption,
    get_parameters (ssm_client env) names with_decryption
    = Ok (respond remote names).

(** The value of [p] once the service was asked for its name. *)
Definition refreshed_value (remote : string -> option string)
    (p : SSMParameter) : option string :=
  match remote (_name p) with
  | Some v => Some v
  | None => _value p
  end.

(** The cached value that the object [p] at [l] holds after a refresh of
    the group [g] against [remote]. *)
Definition value_after_refresh (remote : string -> option string)
    (g : SSMParameterGroup) (l : loc) (p : SSMParameter) : option string :=
  if decide ((_name p, l) ∈ _parameters g) then refreshed_value remote p
  else _value p.

(** [m] is [m0] after the members of the dict [d] whose names are in [K]
    took their values from [remote]. *)
Definition synced (remote : string -> option string) (d : list (string * loc))
    (K : list string) (m0 m : gmap loc SSMParameter) : Prop :=
  forall l : loc,
    m !! l =
    (fun p => if decide ((_name p, l) ∈ d /\ _name p ∈ K)
              then set_value (refreshed_value remote p) p else p) <$> m0 !! l.

(** [six.itervalues(self._parameters)] on a well-formed group *)
Definition member_objects (s : State) (g : SSMParameterGroup)
  : list SSMParameter :=
  omap (fun l => parameters s !! l) (map snd (_parameters g)).

(** [any(p._with_decryption for p in six.itervalues(self._parameters))] *)
Definition any_with_decryption (s : State) (g : SSMParameterGroup) : bool :=
  existsb (fun p => truthy (_with_decryption p)) (member_objects s g).

(** The names of [g] that the service does not know, in the order of the
    dict. *)
Definition invalid_names_of (remote : string -> option string)
    (g : SSMParameterGroup) : list string :=
  filter (fun n => remote n = None) (map fst (_parameters g)).

(** ** Registration and the standalone refresh *)

(** The keyword arguments that [parameter] passes on to [SSMParameter]. *)
Definition member_kwargs (g : SSMParameterGroup) (kwargs : gmap string pyval)
  : gmap string pyval :=
  match kwargs !! "with_decryption" with
  | None => <["with_decryption" := g_with_decryption g]> kwargs
  | Some _ => kwargs
  end.

(** The member that [parameter] creates for [name], given at most a
    [with_decryption] keyword. *)
Definition member_by_name (self : loc) (g : SSMParameterGroup) (name : string)
    (kwargs : gmap string pyval) : SSMParameter :=
  {| p_refreshable := {| _last_refresh_time := None; _max_age := PNone;
                         _max_age_delta := 0 |};
     _name := name; _value := None;
     _with_decryption :=
       default (g_with_decryption g) (kwargs !! "with_decryption");
     _group := Some self |}.

(** The object [p] after a refresh that fetched [v] at the time of [env]. *)
Definition refreshed (env : Env) (v : string) (p : SSMParameter)
  : SSMParameter :=
  set_p_refreshable (mark_refreshed (p_refreshable p) (utcnow env))
    (set_value (Some v) p).

(** What [SSMParameter._refresh] raises when the client raises [e]. *)
Definition reraised (p : SSMParameter) (e : exn) : exn :=
  match e with
  | ClientError code =>
      if String.eqb code "ParameterNotFound" then InvalidParam (_name p) else e
  | _ => e
  end.

(** * A worked example

    A service that knows [A], [C] and [D]; a group at reference 0, built
    with [max_age=10], with the members [A] (1) and [B] (2); and the
    standalone parameters [C] (3), [D] with [max_age=30] (4) and [E] (5). *)

Definition example_remote (n : string) : option string :=
  if String.eqb n "A" then Some "va"
  else if String.eqb n "C" then Some "vc"
  else if String.eqb n "D" then Some "vd"
  else None.

Definition example_client : SSMClient :=
  {| get_parameter := fun n _ =>
       match example_remote n with
       | Some v => Ok v
       | None => Raise (ClientError "ParameterNotFound")
       end;
     get_parameters := fun names _ => Ok (respond example_remote names) |}.

Definition example_env : Env := {| ssm_client := example_client; utcnow := 1000 |}.

Definition example_setup : M State unit :=
  g <-- new_SSMParameterGroup [PInt 10] ∅ ;;
  SSMParameterGroup_parameter g [PStr "A"] ∅ ;;;
  SSMParameterGroup_parameter g [PStr "B"] ∅ ;;;
  new_SSMParameter [PStr "C"] ∅ ;;;
  new_SSMParameter [PStr "D"; PInt 30] ∅ ;;;
  new_SSMParameter [PStr "E"] ∅ ;;;
  ret tt.

Definition example_state : State := fst (example_setup example_env empty_state).

Definition example_group : SSMParameterGroup :=
  {| g_refreshable := {| _last_refresh_time := None; _max_age := PInt 10;
                         _max_age_delta := 10000000 |};
     g_with_decryption := PBool true;
     _parameters := [("A", 1%nat); ("B", 2%nat)] |}.

Definition example_parameter (name : string) (max_age : pyval) (delta : Z)
    (group : option loc) : SSMParameter :=
  {| p_refreshable := {| _last_refresh_time := None; _max_age := max_age;
                         _max_age_delta := delta |};
     _name := name; _value := None; _with_decryption := PBool true;
     _group := group |}.

(** A service that answers every request with a name nobody asked for. *)
Definition example_stray_client : SSMClient :=
  {| get_parameter := fun _ _ => Ok "vz";
     get_parameters := fun _ _ =>
       Ok {| Parameters := [("Z", "vz")]; InvalidParameters := [] |} |}.

(** A function that fails until it is retried, and one that never fails. *)
Definition example_func (args : list pyval) (kwargs : gmap string pyval)
  : M (State * unit) string :=
  match kwargs !! "is_retry" with
  | Some (PBool true) => ret "done"
  | _ => raise (OtherError "stale")
  end.

(** A group at reference 0 with the 25 members [K01] to [K25], at the
    references 1 to 25, and a service that knows every name but [K02]
    and [K21]. *)
Definition example_names : list string :=
  ["K01"; "K02"; "K03"; "K04"; "K05"; "K06"; "K07"; "K08"; "K09"; "K10";
   "K11"; "K12"; "K13"; "K14"; "K15"; "K16"; "K17"; "K18"; "K19"; "K20";
   "K21"; "K22"; "K23"; "K24"; "K25"].

Fixpoint example_register (g : loc) (names : list string) : M State unit :=
  match names with
  | [] => ret tt
  | name :: names' =>
      SSMParameterGroup_parameter g [PStr name] ∅ ;;;
      example_register g names'
  end.

Definition example_big_state : State :=
  fst ((g <-- new_SSMParameterGroup [] ∅ ;; example_register g example_names)
         example_env empty_state).

Definition example_big_group : SSMParameterGroup :=
  {| g_refreshable := {| _last_refresh_time := None; _max_age := PNone;
                         _max_age_delta := 0 |};
     g_with_decryption := PBool true;
     _parameters := zip example_names (seq 1 25) |}.

Definition example_big_remote (n : string) : option string :=
  if String.eqb n "K02" then None
  else if String.eqb n "K21" then None
  else Some ("v" ++ n).

Definition example_big_env : Env :=
  {| ssm_client :=
       {| get_parameter := fun n _ =>
            match example_big_remote n with
            | Some v => Ok v
            | None => Raise (ClientError "ParameterNotFound")
            end;
          get_parameters := fun names _ =>
            Ok (respond example_big_remote names) |};
     utcnow := 1000 |}.

(** A service that is down: every request raises. *)
Definition example_down_env : Env :=
  {| ssm_client :=
       {| get_parameter := fun _ _ => Raise (ClientError "ServiceUnavailable");
          get_parameters := fun _ _ =>
            Raise (ClientError "ServiceUnavailable") |};
     utcnow := 1000 |}.

(** A service that answers as [example_big_remote] until it is asked
    for [K11], and raises then. *)
Definition example_flaky_env : Env :=
  {| ssm_client :=
       {| get_parameter := fun n _ =>
            match example_big_remote n with
            | Some v => Ok v
            | None => Raise (ClientError "ParameterNotFound")
            end;
          get_parameters := fun names _ =>
            if bool_decide ("K11" ∈ names)
            then Raise (ClientError "ThrottlingException")
            else Ok (respond example_big_remote names) |};
     utcnow := 1000 |}.

(** * Properties *)

(** ** The refresh policy *)

Lemma result_bind_Ok {A B} (r : result A) (k : A -> result B) (b : B) :
  result_bind r k = Ok b -> exists a, r = Ok a /\ k a = Ok b.
Proof. destruct r as [a| |]; simpl; intros H; try discriminate; eauto. Qed.

(** A policy built with a non-zero integer [max_age] keeps it, with the
    matching [timedelta], and has never been refreshed. *)
Lemma Refreshable__init__PInt (d : Z) (r : Refreshable) :
  d <> 0 ->
  Refreshable__init__ (PInt d) = Ok r ->
  r = {| _last_refresh_time := None; _max_age := PInt d;
         _max_age_delta := d * 1000000 |}.
Proof.
  intros Hd. unfold Refreshable__init__, py_or. simpl.
  destruct (Z.eqb_spec d 0) as [->|_]; [contradiction|]. simpl.
  unfold Datetime.timedelta_of_seconds.
  destruct (_ && _); simpl; intros H; inversion H; reflexivity.
Qed.

Lemma mark_refreshed_max_age (r : Refreshable) (t : Z) :
  _max_age (mark_refreshed r t) = _max_age r.
Proof. reflexivity. Qed.

Lemma foldl_mark_refreshed_max_age (ts : list Z) (r : Refreshable) :
  _max_age (foldl mark_refreshed r ts) = _max_age r.
Proof.
  revert r. induction ts as [|t ts IH]; intros r; simpl; [reflexivity|].
  rewrite IH. apply mark_refreshed_max_age.
Qed.

(** C1, as the specification states it, fails on the first evaluation:
    a policy built without [max_age] has never been refreshed, and
    [_should_refresh] answers [False], not [True]. *)
Lemma C1_first_evaluation_counterexample :
  exists r : Refreshable,
    Refreshable__init__ PNone = Ok r /\
    _last_refresh_time r = None /\
    Refreshable__should_refresh r 0 = Ok false /\
    Refreshable__should_refresh r 0 <> Ok true.
Proof.
  eexists. split; [reflexivity|]. simpl.
  repeat split; discriminate.
Qed.

(** C1 (amended): a refresh policy whose [max_age] is unset or zero (any
    falsy value) makes [_should_refresh] return [False] on every
    evaluation: on the first one, before any refresh was marked, and
    after any number of marked refreshes [ts], at any time [now]. *)
Theorem C1_falsy_max_age_never_due (r : Refreshable) (ts : list Z) (now : Z) :
  truthy (_max_age r) = false ->
  Refreshable__should_refresh (foldl mark_refreshed r ts) now = Ok false.
Proof.
  intros H. unfold Refreshable__should_refresh.
  rewrite foldl_mark_refreshed_max_age, H. reflexivity.
Qed.

Lemma C1_falsy_max_age_never_due_witness :
  Refreshable__should_refresh
    (foldl mark_refreshed
       {| _last_refresh_time := None; _max_age := PInt 0;
          _max_age_delta := 0 |} [])
    86400000000 = Ok false /\
  Refreshable__should_refresh
    (foldl mark_refreshed
       {| _last_refresh_time := None; _max_age := PNone;
          _max_age_delta := 0 |} [5; 7])
    86400000000 = Ok false.
Proof.
  split; apply C1_falsy_max_age_never_due; reflexivity.
Defined.

(** C8, as the specification states it, fails when the time of the last
    refresh plus [max_age] is no [datetime]: with [max_age = 10**12]
    seconds and a refresh marked at time 1000, a query at that very
    time, which is not after [t + d], raises [OverflowError] from the
    addition, where the claim has [False]. *)
Lemma C8_overflow_counterexample :
  exists r : Refreshable,
    Refreshable__init__ (PInt 1000000000000) = Ok r /\
    1000 <= 1000 + 1000000000000 * 1000000 /\
    Refreshable__should_refresh (mark_refreshed r 1000) 1000
    = Raise OverflowError /\
    Refreshable__should_refresh (mark_refreshed r 1000) 1000 <> Ok false.
Proof.
  eexists. split; [reflexivity|]. split; [lia|].
  split; [reflexivity|discriminate].
Qed.

(** C8 (amended): for a policy built with [max_age = d] seconds, [d] a
    non-zero integer, whose last refresh was marked at time [t], with
    [t + d] a representable [datetime], [_should_refresh] returns
    [False] at every time up to and including [t + d], and [True] at
    every time strictly after [t + d]. *)
Theorem C8_due_strictly_after_max_age (d t now : Z) (r : Refreshable) :
  d <> 0 ->
  Refreshable__init__ (PInt d) = Ok r ->
  0 <= t + d * 1000000 <= Datetime.datetime_max ->
  (now <= t + d * 1000000 ->
   Refreshable__should_refresh (mark_refreshed r t) now = Ok false) /\
  (t + d * 1000000 < now ->
   Refreshable__should_refresh (mark_refreshed r t) now = Ok true).
Proof.
  intros Hd Hinit Hrange.
  rewrite (Refreshable__init__PInt d r Hd Hinit).
  unfold Refreshable__should_refresh, mark_refreshed, Datetime.add. simpl.
  destruct (Z.eqb_spec d 0) as [->|_]; [contradiction|]. simpl.
  destruct (Z.leb_spec 0 (t + d * 1000000)); [|lia].
  destruct (Z.leb_spec (t + d * 1000000) Datetime.datetime_max); [|lia].
  simpl. split; intros Hnow; f_equal.
  - apply Z.ltb_ge. exact Hnow.
  - apply Z.ltb_lt. exact Hnow.
Qed.

Lemma C8_due_strictly_after_max_age_witness :
  Refreshable__should_refresh
    (mark_refreshed
       {| _last_refresh_time := None; _max_age := PInt 30;
          _max_age_delta := 30000000 |} 1000)
    30001000 = Ok false /\
  Refreshable__should_refresh
    (mark_refreshed
       {| _last_refresh_time := None; _max_age := PInt 30;
          _max_age_delta := 30000000 |} 1000)
    30001001 = Ok true.
Proof.
  split.
  - apply (C8_due_strictly_after_max_age 30 1000 30001000);
      [lia | reflexivity | vm_compute; split; discriminate | lia].
  - apply (C8_due_strictly_after_max_age 30 1000 30001001);
      [lia | reflexivity | vm_compute; split; discriminate | lia].
Defined.

(** ** Dicts in insertion order *)

Lemma dict_get_elem_of {V} (d : list (string * V)) (k : string) (v : V) :
  dict_get d k = Some v -> (k, v) ∈ d.
Proof.
  induction d as [|[k' v'] d IH]; simpl; [discriminate|].
  destruct (String.eqb_spec k' k) as [->|_].
  - intros [= ->]. left.
  - intros H. right. auto.
Qed.

Lemma dict_get_None {V} (d : list (string * V)) (k : string) :
  dict_get d k = None <-> k ∉ map fst d.
Proof.
  induction d as [|[k' v'] d IH]; simpl.
  - split; [intros _; apply not_elem_of_nil | reflexivity].
  - rewrite not_elem_of_cons. destruct (String.eqb_spec k' k) as [->|Hne].
    + split; [discriminate | intros [? _]; congruence].
    + rewrite IH. split; [intros ?; split; congruence | intros [_ ?]; assumption].
Qed.

Lemma dict_get_NoDup {V} (d : list (string * V)) (k : string) (v : V) :
  NoDup (map fst d) -> (k, v) ∈ d -> dict_get d k = Some v.
Proof.
  induction d as [|[k' v'] d IH]; simpl; intros Hnd Hin.
  - apply elem_of_nil in Hin. contradiction.
  - apply NoDup_cons in Hnd as [Hk Hnd].
    apply elem_of_cons in Hin as [[= -> ->]|Hin].
    + rewrite String.eqb_refl. reflexivity.
    + destruct (String.eqb_spec k' k) as [->|_]; [|auto].
      exfalso. apply Hk. apply (list_elem_of_fmap_2 fst) in Hin. exact Hin.
Qed.

Lemma dict_unique {V} (d : list (string * V)) (k : string) (v v' : V) :
  NoDup (map fst d) -> (k, v) ∈ d -> (k, v') ∈ d -> v = v'.
Proof.
  intros Hnd H H'. apply (dict_get_NoDup _ _ _ Hnd) in H, H'. congruence.
Qed.

Lemma dict_get_set_eq {V} (d : list (string * V)) (k : string) (v : V) :
  dict_get (dict_set k v d) k = Some v.
Proof.
  induction d as [|[k' v'] d IH]; simpl.
  - rewrite String.eqb_refl. reflexivity.
  - destruct (String.eqb_spec k' k) as [->|Hne]; simpl.
    + rewrite String.eqb_refl. reflexivity.
    + destruct (String.eqb_spec k' k); [contradiction|]. exact IH.
Qed.

Lemma dict_get_set_ne {V} (d : list (string * V)) (k k' : string) (v : V) :
  k <> k' -> dict_get (dict_set k v d) k' = dict_get d k'.
Proof.
  intros Hne. induction d as [|[k0 v0] d IH]; simpl.
  - destruct (String.eqb_spec k k'); [contradiction|reflexivity].
  - destruct (String.eqb_spec k0 k) as [->|Hne0]; simpl.
    + destruct (String.eqb_spec k k'); [contradiction|reflexivity].
    + rewrite IH. reflexivity.
Qed.

Lemma dict_set_keys {V} (d : list (string * V)) (k : string) (v : V) :
  map fst (dict_set k v d) =
  if decide (k ∈ map fst d) then map fst d else (map fst d ++ [k])%list.
Proof.
  induction d as [|[k0 v0] d IH]; cbn [dict_set map fst app].
  - destruct (decide (k ∈ [])) as [H|_]; [|reflexivity].
    apply elem_of_nil in H. contradiction.
  - destruct (String.eqb_spec k0 k) as [->|Hne0]; cbn [map fst].
    + destruct (decide (k ∈ k :: map fst d)) as [_|H]; [reflexivity|].
      exfalso. apply H. left.
    + rewrite IH.
      destruct (decide (k ∈ map fst d)) as [Hin|Hnin];
        destruct (decide (k ∈ k0 :: map fst d)) as [Hin'|Hnin'];
        try reflexivity.
      * exfalso. apply Hnin'. right. exact Hin.
      * exfalso. apply elem_of_cons in Hin' as [?|?]; congruence.
Qed.

Lemma dict_set_NoDup {V} (d : list (string * V)) (k : string) (v : V) :
  NoDup (map fst d) -> NoDup (map fst (dict_set k v d)).
Proof.
  intros Hnd. rewrite dict_set_keys. case_decide; [exact Hnd|].
  apply NoDup_app. split; [exact Hnd|]. split.
  - intros x Hx Hx'. apply list_elem_of_singleton in Hx'. congruence.
  - apply NoDup_singleton.
Qed.

Lemma dict_set_elem_of {V} (d : list (string * V)) (k k' : string) (v v' : V) :
  (k', v') ∈ dict_set k v d -> (k' = k /\ v' = v) \/ (k', v') ∈ d.
Proof.
  induction d as [|[k0 v0] d IH]; simpl.
  - intros H. apply list_elem_of_singleton in H. injection H as -> ->. auto.
  - destruct (String.eqb_spec k0 k) as [->|Hne0]; rewrite !elem_of_cons.
    + intros [[= -> ->]|H]; auto.
    + intros [H|H]; [auto|]. apply IH in H as [H|H]; auto.
Qed.

Lemma dict_set_values {V} (d : list (string * V)) (k : string) (v v' : V) :
  v' ∈ map snd (dict_set k v d) -> v' = v \/ v' ∈ map snd d.
Proof.
  intros H. apply list_elem_of_fmap in H as [[k' v''] [-> H]].
  apply dict_set_elem_of in H as [[_ ->]|H]; [auto|].
  right. apply (list_elem_of_fmap_2 snd) in H. exact H.
Qed.

Lemma dict_set_dict_set {V} (d : list (string * V)) (k : string) (v v' : V) :
  dict_set k v' (dict_set k v d) = dict_set k v' d.
Proof.
  induction d as [|[k0 v0] d IH]; simpl.
  - rewrite String.eqb_refl. reflexivity.
  - destruct (String.eqb_spec k0 k) as [->|Hne]; simpl.
    + rewrite String.eqb_refl. reflexivity.
    + destruct (String.eqb_spec k0 k); [contradiction|]. rewrite IH. reflexivity.
Qed.

(** ** [_batch] *)

Section Batch.

Context {A : Type}.
Implicit Types (l : list A) (n fuel ndx stop : nat).

Lemma length_slice l (lo hi : nat) :
  length (slice l lo hi) = Nat.min (hi - lo) (length l - lo).
Proof. unfold slice. rewrite length_take, length_drop. reflexivity. Qed.

(** The batches from the index [ndx] on make up the rest of the list. *)
Lemma batch_loop_concat l n fuel ndx :
  (0 < n)%nat -> (length l - ndx <= fuel)%nat ->
  concat (map (fun i => slice l i (Nat.min (i + n) (length l)))
              (range_loop fuel ndx (length l) n)) = drop ndx l.
Proof.
  intros Hn. revert ndx.
  induction fuel as [|fuel IH]; intros ndx Hfuel; simpl.
  - symmetry. apply drop_ge. lia.
  - destruct (Nat.ltb_spec ndx (length l)) as [Hlt|Hge]; simpl.
    + rewrite IH by lia. unfold slice.
      destruct (Nat.le_gt_cases (ndx + n) (length l)) as [Hle|Hgt].
      * rewrite Nat.min_l by lia.
        replace (ndx + n - ndx)%nat with n by lia.
        rewrite <- drop_drop. apply take_drop.
      * rewrite Nat.min_r by lia.
        rewrite (drop_ge l (ndx + n)) by lia.
        rewrite app_nil_r. apply take_ge. rewrite length_drop. lia.
    + symmetry. apply drop_ge. lia.
Qed.

Lemma range_loop_length fuel ndx stop n :
  (0 < n)%nat -> (stop - ndx <= fuel)%nat ->
  length (range_loop fuel ndx stop n) = ((stop - ndx + n - 1) / n)%nat.
Proof.
  intros Hn. revert ndx.
  induction fuel as [|fuel IH]; intros ndx Hfuel; simpl.
  - replace (stop - ndx + n - 1)%nat with (n - 1)%nat by lia.
    symmetry. apply Nat.div_small. lia.
  - destruct (Nat.ltb_spec ndx stop) as [Hlt|Hge]; simpl.
    + rewrite IH by lia.
      destruct (Nat.le_gt_cases (ndx + n) stop) as [Hle|Hgt].
      * replace (stop - ndx + n - 1)%nat
          with ((stop - (ndx + n) + n - 1) + 1 * n)%nat by lia.
        rewrite Nat.div_add by lia. lia.
      * replace (stop - (ndx + n) + n - 1)%nat with (n - 1)%nat by lia.
        rewrite (Nat.div_small (n - 1) n) by lia.
        rewrite <- (Nat.div_unique _ n 1%nat (stop - ndx - 1)%nat); lia.
    + replace (stop - ndx + n - 1)%nat with (n - 1)%nat by lia.
      symmetry. apply Nat.div_small. lia.
Qed.

(** The [i]-th index that [range] yields is [ndx + i * n]. *)
Lemma range_loop_lookup fuel ndx stop n (i j : nat) :
  range_loop fuel ndx stop n !! i = Some j ->
  j = (ndx + i * n)%nat /\ (j < stop)%nat.
Proof.
  revert ndx i. induction fuel as [|fuel IH]; intros ndx i; simpl.
  - discriminate.
  - destruct (Nat.ltb_spec ndx stop) as [Hlt|Hge]; [|discriminate].
    destruct i as [|i]; simpl.
    + intros [= <-]. lia.
    + intros H. apply IH in H. lia.
Qed.

Lemma _batch_Ok l n :
  n <> 0%nat ->
  _batch l n =
  Ok (map (fun i => slice l i (Nat.min (i + n) (length l)))
          (range_loop (length l) 0 (length l) n)).
Proof.
  intros Hn. unfold _batch, range.
  destruct (Nat.eqb_spec n 0) as [?|_]; [contradiction|].
  simpl. rewrite Nat.sub_0_r. reflexivity.
Qed.

Lemma _batch_first l n :
  n <> 0%nat -> l <> [] ->
  exists batches, _batch l n = Ok (take n l :: batches).
Proof.
  intros Hn Hl. rewrite _batch_Ok by exact Hn.
  destruct l as [|a l]; [contradiction|].
  cbn [length range_loop].
  destruct (Nat.ltb_spec 0 (S (length l))) as [_|?]; [|lia].
  cbn [map]. eexists. f_equal. f_equal. unfold slice. simpl drop.
  destruct (Nat.le_gt_cases (0 + n) (S (length l))).
  - rewrite Nat.min_l by lia. f_equal. lia.
  - rewrite Nat.min_r by lia. rewrite !take_ge; [reflexivity| |]; simpl; lia.
Qed.

End Batch.

(** For a positive batch size, [_batch] yields batches that, put end to
    end, are the input: nothing is lost, repeated or reordered. *)
Theorem batch_concat {A} (l : list A) (n : nat) :
  n <> 0%nat ->
  exists batches, _batch l n = Ok batches /\ concat batches = l.
Proof.
  intros Hn. eexists. split; [apply _batch_Ok; exact Hn|].
  rewrite batch_loop_concat by lia. reflexivity.
Qed.

Lemma batch_concat_witness :
  exists batches,
    _batch ["a"; "b"; "c"; "d"; "e"] 2 = Ok batches /\
    concat batches = ["a"; "b"; "c"; "d"; "e"].
Proof. apply batch_concat. lia. Defined.

(** For a positive batch size [n], [_batch] yields the length of the
    input divided by [n], rounded up, batches; none for an empty input. *)
Theorem batch_count {A} (l : list A) (n : nat) (batches : list (list A)) :
  n <> 0%nat -> _batch l n = Ok batches ->
  length batches = ((length l + n - 1) / n)%nat.
Proof.
  intros Hn. rewrite _batch_Ok by exact Hn. intros [= <-].
  rewrite length_map, range_loop_length by lia.
  rewrite Nat.sub_0_r. reflexivity.
Qed.

Lemma batch_count_witness :
  length [["a"; "b"]; ["c"; "d"]; ["e"]]
  = ((length ["a"; "b"; "c"; "d"; "e"] + 2 - 1) / 2)%nat.
Proof.
  apply (batch_count ["a"; "b"; "c"; "d"; "e"] 2); [lia | reflexivity].
Defined.

(** The [i]-th batch holds the [n] elements from position [i * n] on, or
    those that are left: it is never empty, never longer than [n], and
    only the last batch can be shorter than [n]. *)
Theorem batch_lookup {A} (l : list A) (n : nat) (batches : list (list A))
    (i : nat) (batch : list A) :
  n <> 0%nat -> _batch l n = Ok batches -> batches !! i = Some batch ->
  batch = take n (drop (i * n) l) /\
  (1 <= length batch <= n)%nat /\
  ((S i < length batches)%nat -> length batch = n).
Proof.
  intros Hn. rewrite _batch_Ok by exact Hn. intros [= <-] Hi.
  rewrite list_lookup_fmap in Hi.
  destruct (range_loop _ _ _ _ !! i) as [j|] eqn:Hj; [|discriminate].
  simpl in Hi. injection Hi as <-.
  pose proof (range_loop_lookup _ _ _ _ _ _ Hj) as [-> Hlt]. simpl in *.
  assert (Heq : slice l (i * n) (Nat.min (i * n + n) (length l))
                = take n (drop (i * n) l)).
  { unfold slice. destruct (Nat.le_gt_cases (i * n + n) (length l)).
    - rewrite Nat.min_l by lia. f_equal. lia.
    - rewrite Nat.min_r by lia.
      rewrite !take_ge; [reflexivity| |]; rewrite length_drop; lia. }
  split; [exact Heq|]. rewrite length_slice. split; [lia|].
  rewrite length_map. intros Hnext.
  destruct (lookup_lt_is_Some_2 (range_loop (length l) 0 (length l) n) (S i) Hnext)
    as [j' Hj'].
  apply range_loop_lookup in Hj'. simpl in Hj'. lia.
Qed.

Lemma batch_lookup_witness :
  ["e"] = take 2 (drop (2 * 2) ["a"; "b"; "c"; "d"; "e"]) /\
  (1 <= length ["e"] <= 2)%nat /\
  ((3 < length [["a"; "b"]; ["c"; "d"]; ["e"]])%nat -> length ["e"] = 2%nat).
Proof.
  apply (batch_lookup ["a"; "b"; "c"; "d"; "e"] 2
           [["a"; "b"]; ["c"; "d"]; ["e"]] 2 ["e"]);
    [lia | reflexivity | reflexivity].
Defined.

(** ** Running the monad *)

Lemma bind_Ok {S A B} (c : M S A) (k : A -> M S B) env s s1 a :
  c env s = (s1, Ok a) -> bind c k env s = k a env s1.
Proof. unfold bind. intros ->. reflexivity. Qed.

Lemma bind_Raise {S A B} (c : M S A) (k : A -> M S B) env s s1 e :
  c env s = (s1, Raise e) -> bind c k env s = (s1, Raise e).
Proof. unfold bind. intros ->. reflexivity. Qed.

(** ** What refreshing a group leaves alone *)

Lemma set_value_id (p : SSMParameter) : set_value (_value p) p = p.
Proof. destruct p; reflexivity. Qed.

Lemma refreshes_refl touched s : refreshes touched s s.
Proof.
  repeat split; [exists []; symmetry; apply app_nil_r|].
  intros l. destruct (parameters s !! l) as [p|]; [|exact I].
  split; [symmetry; apply set_value_id | reflexivity].
Qed.

Lemma refreshes_trans touched s1 s2 s3 :
  refreshes touched s1 s2 -> refreshes touched s2 s3 -> refreshes touched s1 s3.
Proof.
  intros (Hg1 & Hn1 & [r1 Hc1] & Hp1) (Hg2 & Hn2 & [r2 Hc2] & Hp2).
  repeat split; [congruence | congruence | |].
  - exists (r1 ++ r2)%list. rewrite Hc2, Hc1, app_assoc. reflexivity.
  - intros l. specialize (Hp1 l). specialize (Hp2 l).
    destruct (parameters s1 !! l) as [p1|], (parameters s2 !! l) as [p2|],
      (parameters s3 !! l) as [p3|]; try tauto.
    destruct Hp1 as [E1 F1], Hp2 as [E2 F2]. split.
    + rewrite E2, E1. reflexivity.
    + intros H. rewrite F2, F1 by exact H. reflexivity.
Qed.

Lemma refreshes_members touched self s s' :
  refreshes touched s s' -> members s' self = members s self.
Proof. intros (Hg & _). unfold members. rewrite Hg. reflexivity. Qed.

Lemma bind_refreshes {A B} touched (c : M State A) (k : A -> M State B) env s :
  refreshes touched s (fst (c env s)) ->
  (forall a s1, c env s = (s1, Ok a) ->
     refreshes touched s s1 -> refreshes touched s1 (fst (k a env s1))) ->
  refreshes touched s (fst (bind c k env s)).
Proof.
  unfold bind. destruct (c env s) as [s1 [a| |]]; simpl; intros H1 H2;
    try exact H1.
  eapply refreshes_trans; [exact H1|]. apply H2; [reflexivity|exact H1].
Qed.

Lemma pure_refreshes {A} touched (c : M State A) env s :
  fst (c env s) = s -> refreshes touched s (fst (c env s)).
Proof. intros ->. apply refreshes_refl. Qed.

Lemma update_value_refreshes touched l v env s :
  l ∈ touched ->
  refreshes touched s (fst (update_parameter l (set_value v) env s)).
Proof.
  intros Hl. unfold update_parameter.
  destruct (parameters s !! l) as [p|] eqn:Hp; simpl; [|apply refreshes_refl].
  repeat split; [exists []; symmetry; apply app_nil_r|].
  simpl. intros l'. destruct (decide (l = l')) as [<-|Hne].
  - rewrite Hp, lookup_insert_eq. split; [reflexivity|contradiction].
  - rewrite lookup_insert_ne by exact Hne.
    destruct (parameters s !! l') as [p'|]; [|exact I].
    split; [symmetry; apply set_value_id | reflexivity].
Qed.

Lemma assign_item_refreshes self item env s :
  refreshes (members s self) s (fst (assign_item self item env s)).
Proof.
  unfold assign_item, bind, lookup_group, members.
  destruct (groups s !! self) as [g|] eqn:Hg; simpl; [|apply refreshes_refl].
  destruct (dict_get (_parameters g) (fst item)) as [l|] eqn:Hl;
    [|apply refreshes_refl].
  apply update_value_refreshes.
  apply dict_get_elem_of in Hl.
  apply (list_elem_of_fmap_2 snd) in Hl. exact Hl.
Qed.

Lemma for_items_refreshes self items env s :
  refreshes (members s self) s (fst (for_items self items env s)).
Proof.
  revert s. induction items as [|item items IH]; intros s; simpl.
  - apply refreshes_refl.
  - apply bind_refreshes; [apply assign_item_refreshes|].
    intros _ s1 _ H1. rewrite <- (refreshes_members _ self _ _ H1). apply IH.
Qed.

Lemma call_get_parameters_refreshes touched Names wd env s :
  refreshes touched s (fst (call_get_parameters Names wd env s)).
Proof.
  unfold call_get_parameters. simpl. repeat split; [eexists; reflexivity|].
  simpl. intros l. destruct (parameters s !! l) as [p|]; [|exact I].
  split; [symmetry; apply set_value_id | reflexivity].
Qed.

Lemma for_batches_refreshes self wd batches invalid_names env s :
  refreshes (members s self) s
    (fst (for_batches self wd batches invalid_names env s)).
Proof.
  revert s invalid_names.
  induction batches as [|batch batches IH]; intros s invalid_names; simpl.
  - apply refreshes_refl.
  - apply bind_refreshes; [apply call_get_parameters_refreshes|].
    intros response s1 _ H1.
    rewrite <- (refreshes_members _ self _ _ H1).
    apply bind_refreshes; [apply for_items_refreshes|].
    intros _ s2 _ H2. rewrite <- (refreshes_members _ self _ _ H2). apply IH.
Qed.

Lemma itervalues_state refs env s : fst (itervalues refs env s) = s.
Proof.
  induction refs as [|l refs IH]; simpl; [reflexivity|].
  unfold bind, lookup_parameter.
  destruct (parameters s !! l) as [p|]; simpl; [|reflexivity].
  destruct (itervalues refs env s) as [s1 [ps| |]]; simpl in *; exact IH.
Qed.

Lemma SSMParameterGroup__refresh_refreshes self env s :
  refreshes (members s self) s (fst (SSMParameterGroup__refresh self env s)).
Proof.
  unfold SSMParameterGroup__refresh.
  apply bind_refreshes; [apply pure_refreshes; reflexivity|].
  intros g s1 Hg _. injection Hg as <- _.
  apply bind_refreshes; [apply pure_refreshes, itervalues_state|].
  intros ps s1 Hps _.
  pose proof (itervalues_state (map snd (_parameters g)) env s) as Hs.
  rewrite Hps in Hs. simpl in Hs. subst s1.
  apply bind_refreshes; [apply pure_refreshes; reflexivity|].
  intros batches s1 Hb _. injection Hb as <- _.
  apply bind_refreshes; [apply for_batches_refreshes|].
  intros invalid s1 _ H1. destruct invalid; apply refreshes_refl.
Qed.

(** [refresh] on a group is [_refresh], then the timestamp, and the
    timestamp only if [_refresh] returned. *)
Lemma SSMParameterGroup_refresh_run self env s :
  SSMParameterGroup_refresh self env s =
  match SSMParameterGroup__refresh self env s with
  | (s1, Ok _) =>
      match groups s !! self with
      | Some g =>
          ({| parameters := parameters s1;
              groups := <[self := set_g_refreshable
                                    (mark_refreshed (g_refreshable g) (utcnow env))
                                    g]> (groups s);
              next_loc := next_loc s1; calls := calls s1 |}, Ok tt)
      | None => (s1, Undef)
      end
  | (s1, Raise e) => (s1, Raise e)
  | (s1, Undef) => (s1, Undef)
  end.
Proof.
  pose proof (SSMParameterGroup__refresh_refreshes self env s) as (Hg & _).
  unfold SSMParameterGroup_refresh, bind at 1.
  destruct (SSMParameterGroup__refresh self env s) as [s1 [[]| |]];
    try reflexivity.
  simpl in Hg. unfold bind, ask, update_group. simpl. rewrite Hg.
  destruct (groups s !! self); reflexivity.
Qed.

(** Refreshing a group, whatever the client answers and however the
    refresh ends, creates and deletes no object, only adds requests to
    the trace, changes nothing of a parameter but its cached value, and
    leaves the objects that the group does not refer to as they were. *)
Theorem SSMParameterGroup_refresh_frame self env s :
  let s' := fst (SSMParameterGroup_refresh self env s) in
  next_loc s' = next_loc s /\
  (exists requests, calls s' = (calls s ++ requests)%list) /\
  forall l : loc,
    match parameters s !! l, parameters s' !! l with
    | Some p, Some p' =>
        p' = set_value (_value p') p /\ (l ∉ members s self -> p' = p)
    | None, None => True
    | _, _ => False
    end.
Proof.
  pose proof (SSMParameterGroup__refresh_refreshes self env s)
    as (_ & Hn & Hc & Hp).
  rewrite SSMParameterGroup_refresh_run.
  destruct (SSMParameterGroup__refresh self env s) as [s1 [[]| |]];
    simpl in *; try (split; [exact Hn|split; [exact Hc|exact Hp]]).
  destruct (groups s !! self); simpl; split; auto.
Qed.

(** [refresh] on a group records the time of the refresh if and only if
    [_refresh] returns: when it returns, the group's
    [_last_refresh_time] becomes the current time and nothing else of any
    group changes; when it raises, for unknown names or for any other
    reason, every group is as it was. *)
Theorem SSMParameterGroup_refresh_timestamp self env s :
  let (s', r) := SSMParameterGroup_refresh self env s in
  match r with
  | Ok _ =>
      exists g, groups s !! self = Some g /\
        groups s' = <[self := set_g_refreshable
                                (mark_refreshed (g_refreshable g) (utcnow env))
                                g]> (groups s)
  | _ => groups s' = groups s
  end.
Proof.
  pose proof (SSMParameterGroup__refresh_refreshes self env s) as (Hg & _).
  rewrite SSMParameterGroup_refresh_run.
  destruct (SSMParameterGroup__refresh self env s) as [s1 [[]| |]];
    simpl in *; try exact Hg.
  destruct (groups s !! self) as [g|]; [|exact Hg].
  exists g. split; reflexivity.
Qed.

(** ** Refreshing a group against a store of values *)

Lemma synced_nil remote d m : synced remote d [] m m.
Proof.
  intros l. destruct (m !! l) as [p|]; simpl; [|reflexivity].
  rewrite decide_False; [reflexivity|].
  intros [_ H]. apply elem_of_nil in H. exact H.
Qed.

Lemma synced_all remote (d : list (string * loc)) m0 m :
  synced remote d (map fst d) m0 m ->
  forall l : loc,
    m !! l =
    (fun p => if decide ((_name p, l) ∈ d)
              then set_value (refreshed_value remote p) p else p) <$> m0 !! l.
Proof.
  intros H l. rewrite (H l). destruct (m0 !! l) as [p|]; simpl; [|reflexivity].
  f_equal.
  destruct (decide (_ /\ _)) as [[Hd _]|H1], (decide (_ ∈ d)) as [Hd'|H2];
    try reflexivity; try contradiction.
  exfalso. apply H1. split; [exact Hd'|].
  apply (list_elem_of_fmap_2 fst) in Hd'. exact Hd'.
Qed.

Lemma itervalues_wf (d : list (string * loc)) env s :
  Forall (fun kl => _name <$> parameters s !! snd kl = Some (fst kl)) d ->
  exists ps, itervalues (map snd d) env s = (s, Ok ps) /\
             map _name ps = map fst d /\
             ps = omap (fun l => parameters s !! l) (map snd d).
Proof.
  induction d as [|[k l] d IH]; intros Hall.
  - exists []. auto.
  - apply Forall_cons in Hall as [Hk Hall]. cbn [fst snd] in Hk.
    destruct (IH Hall) as (ps & E & Hn & Hps).
    cbn [map fst snd itervalues omap list_omap]. unfold bind, lookup_parameter.
    destruct (parameters s !! l) as [p|]; [|discriminate].
    injection Hk as Hk. rewrite E. exists (p :: ps).
    split; [reflexivity|]. split.
    + cbn [map]. rewrite Hn, Hk. reflexivity.
    + rewrite Hps. reflexivity.
Qed.

Section Store.

Variables (remote : string -> option string) (self : loc)
          (g : SSMParameterGroup) (m0 : gmap loc SSMParameter).
Hypothesis Hnd : NoDup (map fst (_parameters g)).
Hypothesis Hm0 : Forall (fun kl => _name <$> m0 !! snd kl = Some (fst kl))
                        (_parameters g).

(** A name that the service does not know changes nothing. *)
Lemma synced_unknown K n m :
  remote n = None -> synced remote (_parameters g) K m0 m ->
  synced remote (_parameters g) (K ++ [n]) m0 m.
Proof.
  intros Hn H l. rewrite (H l). destruct (m0 !! l) as [p|]; simpl; [|reflexivity].
  f_equal.
  destruct (decide (_ /\ _ ∈ (K ++ [n])%list)) as [[Hd HK]|H1],
           (decide (_ /\ _ ∈ K)) as [[Hd' HK']|H2]; try reflexivity.
  - apply elem_of_app in HK as [HK|HK]; [tauto|].
    apply list_elem_of_singleton in HK.
    unfold refreshed_value. rewrite HK, Hn. symmetry. apply set_value_id.
  - exfalso. apply H1. split; [assumption|].
    apply elem_of_app. left. assumption.
Qed.

(** An item of the response sets the value of the member of that name. *)
Lemma assign_item_synced K n v env s :
  groups s !! self = Some g ->
  n ∈ map fst (_parameters g) -> remote n = Some v ->
  synced remote (_parameters g) K m0 (parameters s) ->
  exists m, assign_item self (n, v) env s = (with_parameters m s, Ok tt) /\
            synced remote (_parameters g) (K ++ [n]) m0 m.
Proof.
  intros Hg Hn Hv Hs. unfold assign_item, bind, lookup_group. rewrite Hg. simpl.
  destruct (dict_get (_parameters g) n) as [l|] eqn:Hl;
    [|apply dict_get_None in Hl; contradiction].
  pose proof (dict_get_elem_of _ _ _ Hl) as Hin.
  pose proof Hm0 as Hm. rewrite Forall_forall in Hm. specialize (Hm _ Hin).
  simpl in Hm. destruct (m0 !! l) as [p0|] eqn:Hp0; [|discriminate].
  injection Hm as Hname.
  unfold update_parameter. pose proof (Hs l) as Hsl. rewrite Hp0 in Hsl.
  simpl in Hsl. rewrite Hsl. clear Hsl. eexists. split; [reflexivity|].
  intros l'. destruct (decide (l = l')) as [<-|Hne].
  - rewrite lookup_insert_eq, Hp0. simpl. f_equal.
    destruct (decide (_ /\ _ ∈ (K ++ [n])%list)) as [_|H1].
    + unfold refreshed_value. rewrite Hname, Hv.
      destruct (decide _); reflexivity.
    + exfalso. apply H1. rewrite Hname. split; [exact Hin|].
      apply elem_of_app. right. left.
  - rewrite lookup_insert_ne by exact Hne. rewrite (Hs l').
    destruct (m0 !! l') as [p'|]; simpl; [|reflexivity]. f_equal.
    destruct (decide (_ /\ _ ∈ (K ++ [n])%list)) as [[Hd HK]|H1],
             (decide (_ /\ _ ∈ K)) as [[Hd' HK']|H2]; try reflexivity.
    + exfalso. apply elem_of_app in HK as [HK|HK]; [tauto|].
      apply list_elem_of_singleton in HK. rewrite HK in Hd.
      apply Hne. exact (dict_unique _ _ _ _ Hnd Hin Hd).
    + exfalso. apply H1. split; [exact Hd'|].
      apply elem_of_app. left. exact HK'.
Qed.

Lemma for_items_synced K batch env s :
  groups s !! self = Some g ->
  Forall (fun n => n ∈ map fst (_parameters g)) batch ->
  synced remote (_parameters g) K m0 (parameters s) ->
  exists m,
    for_items self (Parameters (respond remote batch)) env s
    = (with_parameters m s, Ok tt) /\
    synced remote (_parameters g) (K ++ batch) m0 m.
Proof.
  intros Hg. revert K s Hg.
  induction batch as [|n batch IH]; intros K s Hg Hall Hs; simpl.
  - exists (parameters s). rewrite app_nil_r. split; [|exact Hs].
    destruct s; reflexivity.
  - apply Forall_cons in Hall as [Hn Hall].
    destruct (remote n) as [v|] eqn:Hv; simpl.
    + destruct (assign_item_synced K n v env s Hg Hn Hv Hs) as (m1 & E1 & S1).
      unfold bind. rewrite E1.
      destruct (IH (K ++ [n])%list (with_parameters m1 s) Hg Hall S1)
        as (m2 & E2 & S2).
      exists m2. split; [exact E2|]. rewrite <- app_assoc in S2. exact S2.
    + destruct (IH (K ++ [n])%list s Hg Hall (synced_unknown K n _ Hv Hs))
        as (m2 & E2 & S2).
      exists m2. split; [exact E2|]. rewrite <- app_assoc in S2. exact S2.
Qed.

Lemma for_batches_synced K wd batches invalid_names env s :
  answers remote env ->
  groups s !! self = Some g ->
  Forall (fun n => n ∈ map fst (_parameters g)) (concat batches) ->
  synced remote (_parameters g) K m0 (parameters s) ->
  exists m,
    for_batches self wd batches invalid_names env s
    = (with_calls (calls s ++ map (fun b => GetParameters b wd) batches)
         (with_parameters m s),
       Ok (invalid_names
           ++ filter (fun n => remote n = None) (concat batches))%list)
    /\ synced remote (_parameters g) (K ++ concat batches) m0 m.
Proof.
  intros Hclient Hg. revert K s invalid_names Hg.
  induction batches as [|batch batches IH]; intros K s inv Hg Hall Hs; simpl.
  - exists (parameters s). rewrite !app_nil_r. split; [|exact Hs].
    destruct s; reflexivity.
  - apply Forall_app in Hall as [Hb Hall].
    unfold bind at 1. unfold call_get_parameters. rewrite Hclient.
    set (s1 := {| parameters := parameters s; groups := groups s;
                  next_loc := next_loc s;
                  calls := (calls s ++ [GetParameters batch wd])%list |}).
    destruct (for_items_synced K batch env s1 Hg Hb Hs) as (m1 & E1 & S1).
    unfold bind at 1. rewrite E1.
    destruct (IH (K ++ batch)%list (with_parameters m1 s1)
                 (inv ++ InvalidParameters (respond remote batch))%list
                 Hg Hall S1) as (m2 & E2 & S2).
    exists m2. split.
    + rewrite E2. unfold with_calls, with_parameters. simpl.
      rewrite <- !app_assoc. simpl. rewrite filter_app. reflexivity.
    + rewrite <- app_assoc in S2. exact S2.
Qed.

End Store.

Lemma SSMParameterGroup__refresh_store remote self g env s :
  answers remote env -> groups s !! self = Some g -> group_wf s g ->
  exists batches m,
    _batch (map fst (_parameters g)) 10 = Ok batches /\
    SSMParameterGroup__refresh self env s =
      (with_calls
         (calls s ++ map (fun b => GetParameters b (any_with_decryption s g))
                         batches)
         (with_parameters m s),
       match invalid_names_of remote g with
       | [] => Ok tt
       | names => Raise (InvalidParam (String.concat "," names))
       end) /\
    forall l : loc,
      m !! l =
      (fun p => if decide ((_name p, l) ∈ _parameters g)
                then set_value (refreshed_value remote p) p else p)
      <$> parameters s !! l.
Proof.
  intros Hclient Hg [Hnd Hall].
  pose proof (_batch_Ok (map fst (_parameters g)) 10 ltac:(discriminate)) as Hb.
  pose proof (batch_loop_concat (map fst (_parameters g)) 10
                (length (map fst (_parameters g))) 0 ltac:(lia) ltac:(lia))
    as Hcat.
  set (batches := map _ (range_loop _ _ _ _)) in Hb, Hcat.
  rewrite drop_0 in Hcat.
  destruct (itervalues_wf _ env s Hall) as (ps & Eps & Hnames & Hps).
  assert (Hin : Forall (fun n => n ∈ map fst (_parameters g)) (concat batches)).
  { rewrite Hcat. apply Forall_forall. auto. }
  destruct (for_batches_synced remote self g (parameters s) Hnd Hall []
              (any_with_decryption s g) batches [] env s Hclient Hg Hin
              (synced_nil _ _ _)) as (m & Em & Hm).
  exists batches, m. split; [exact Hb|]. split.
  - unfold SSMParameterGroup__refresh.
    rewrite (bind_Ok _ _ env s s g)
      by (unfold lookup_group; rewrite Hg; reflexivity).
    rewrite (bind_Ok _ _ env s s ps Eps).
    rewrite Hnames.
    rewrite (bind_Ok _ _ env s s batches)
      by (unfold lift; rewrite Hb; reflexivity).
    unfold any_with_decryption, member_objects in Em. rewrite <- Hps in Em.
    rewrite (bind_Ok _ _ env s _ _ Em).
    unfold invalid_names_of, any_with_decryption, member_objects.
    rewrite Hcat, <- Hps. cbn [app].
    destruct (filter (fun n => remote n = None) (map fst (_parameters g)));
      reflexivity.
  - apply synced_all. simpl in Hm. rewrite Hcat in Hm. exact Hm.
Qed.

Lemma SSMParameterGroup_refresh_store remote self g env s :
  answers remote env -> groups s !! self = Some g -> group_wf s g ->
  exists batches m,
    _batch (map fst (_parameters g)) 10 = Ok batches /\
    (forall l : loc,
       _value <$> m !! l
       = value_after_refresh remote g l <$> parameters s !! l) /\
    (forall l : loc, is_Some (m !! l) <-> is_Some (parameters s !! l)) /\
    SSMParameterGroup_refresh self env s =
      let requests :=
        map (fun b => GetParameters b (any_with_decryption s g)) batches in
      match invalid_names_of remote g with
      | [] =>
          ({| parameters := m;
              groups := <[self := set_g_refreshable
                                    (mark_refreshed (g_refreshable g) (utcnow env))
                                    g]> (groups s);
              next_loc := next_loc s;
              calls := (calls s ++ requests)%list |}, Ok tt)
      | names =>
          ({| parameters := m; groups := groups s; next_loc := next_loc s;
              calls := (calls s ++ requests)%list |},
           Raise (InvalidParam (String.concat "," names)))
      end.
Proof.
  intros Hclient Hg Hwf.
  destruct (SSMParameterGroup__refresh_store remote self g env s Hclient Hg Hwf)
    as (batches & m & Hb & E & Hm).
  exists batches, m. split; [exact Hb|]. split; [|split].
  - intros l. rewrite (Hm l). unfold value_after_refresh.
    destruct (parameters s !! l) as [p|]; simpl; [|reflexivity].
    destruct (decide _); reflexivity.
  - intros l. rewrite (Hm l), fmap_is_Some. reflexivity.
  - unfold SSMParameterGroup_refresh. cbv zeta.
    destruct (invalid_names_of remote g) as [|n names].
    + rewrite (bind_Ok _ _ _ _ _ _ E). unfold bind, ask, update_group. simpl.
      rewrite Hg. reflexivity.
    + rewrite (bind_Raise _ _ _ _ _ _ E). reflexivity.
Qed.

(** Refreshing a well-formed group against a store of values gives
    every member that the store knows the value of the store, also when
    other members are unknown to it, and leaves the cached value of
    every other object as it was. *)
Theorem SSMParameterGroup_refresh_values remote self g env s (l : loc) :
  answers remote env -> groups s !! self = Some g -> group_wf s g ->
  _value <$> parameters (fst (SSMParameterGroup_refresh self env s)) !! l
  = (fun p => if decide ((_name p, l) ∈ _parameters g)
              then match remote (_name p) with
                   | Some v => Some v
                   | None => _value p
                   end
              else _value p) <$> parameters s !! l.
Proof.
  intros Hclient Hg Hwf.
  destruct (SSMParameterGroup_refresh_store remote self g env s Hclient Hg Hwf)
    as (batches & m & _ & Hm & _ & E).
  rewrite E. cbv zeta. destruct (invalid_names_of remote g); apply Hm.
Qed.

Lemma SSMParameterGroup_refresh_values_witness :
  _value <$> parameters (fst (SSMParameterGroup_refresh 0%nat example_env
                                example_state)) !! 1%nat
  = (fun p => if decide ((_name p, 1%nat) ∈ _parameters example_group)
              then match example_remote (_name p) with
                   | Some v => Some v
                   | None => _value p
                   end
              else _value p) <$> parameters example_state !! 1%nat.
Proof.
  apply (SSMParameterGroup_refresh_values example_remote 0%nat example_group).
  - intros names with_decryption. reflexivity.
  - reflexivity.
  - apply (bool_decide_unpack _). vm_compute. exact I.
Defined.

(** Refreshing a well-formed group against a store of values, a service
    that answers every request, sends one [get_parameters] request for
    each batch of ten of the names of its dict, in the order of the
    dict, each with [WithDecryption] true if and only if some member's
    [_with_decryption] is true; a name that the store does not know
    does not stop the later batches. *)
Theorem SSMParameterGroup_refresh_requests remote self g env s :
  answers remote env -> groups s !! self = Some g -> group_wf s g ->
  exists batches,
    _batch (map fst (_parameters g)) 10 = Ok batches /\
    calls (fst (SSMParameterGroup_refresh self env s))
    = (calls s
       ++ map (fun b =>
                 GetParameters b
                   (existsb (fun p => truthy (_with_decryption p))
                      (omap (fun l => parameters s !! l)
                            (map snd (_parameters g)))))
              batches)%list.
Proof.
  intros Hclient Hg Hwf.
  destruct (SSMParameterGroup_refresh_store remote self g env s Hclient Hg Hwf)
    as (batches & m & Hb & _ & _ & E).
  exists batches. split; [exact Hb|].
  rewrite E. cbv zeta. destruct (invalid_names_of remote g); reflexivity.
Qed.

Lemma SSMParameterGroup_refresh_requests_witness :
  calls (fst (SSMParameterGroup_refresh 0%nat example_big_env example_big_state))
  = [GetParameters ["K01"; "K02"; "K03"; "K04"; "K05";
                    "K06"; "K07"; "K08"; "K09"; "K10"] true;
     GetParameters ["K11"; "K12"; "K13"; "K14"; "K15";
                    "K16"; "K17"; "K18"; "K19"; "K20"] true;
     GetParameters ["K21"; "K22"; "K23"; "K24"; "K25"] true].
Proof.
  destruct (SSMParameterGroup_refresh_requests example_big_remote 0%nat
              example_big_group example_big_env example_big_state)
    as (batches & Hb & ->).
  - intros names with_decryption. reflexivity.
  - reflexivity.
  - apply (bool_decide_unpack _). vm_compute. exact I.
  - vm_compute in Hb. injection Hb as <-. reflexivity.
Defined.

(** Refreshing a well-formed group against a store of values returns
    and records the time of the refresh when the store knows every name;
    otherwise it raises [InvalidParam] with the unknown names, joined by
    commas in the order of the dict, and records no time. *)
Theorem SSMParameterGroup_refresh_outcome remote self g env s :
  answers remote env -> groups s !! self = Some g -> group_wf s g ->
  let (s', r) := SSMParameterGroup_refresh self env s in
  match filter (fun n => remote n = None) (map fst (_parameters g)) with
  | [] =>
      r = Ok tt /\
      groups s' = <[self := set_g_refreshable
                              (mark_refreshed (g_refreshable g) (utcnow env))
                              g]> (groups s)
  | names =>
      r = Raise (InvalidParam (String.concat "," names)) /\
      groups s' = groups s
  end.
Proof.
  intros Hclient Hg Hwf.
  destruct (SSMParameterGroup_refresh_store remote self g env s Hclient Hg Hwf)
    as (batches & m & _ & _ & _ & E).
  rewrite E. cbv zeta. unfold invalid_names_of.
  destruct (filter _ _); split; reflexivity.
Qed.

Lemma SSMParameterGroup_refresh_outcome_witness :
  let (s', r) := SSMParameterGroup_refresh 0%nat example_env example_state in
  match filter (fun n => example_remote n = None)
               (map fst (_parameters example_group)) with
  | [] =>
      r = Ok tt /\
      groups s' = <[0%nat := set_g_refreshable
                               (mark_refreshed (g_refreshable example_group)
                                  (utcnow example_env))
                               example_group]> (groups example_state)
  | names =>
      r = Raise (InvalidParam (String.concat "," names)) /\
      groups s' = groups example_state
  end.
Proof.
  apply (SSMParameterGroup_refresh_outcome example_remote).
  - intros names with_decryption. reflexivity.
  - reflexivity.
  - apply (bool_decide_unpack _). vm_compute. exact I.
Defined.

(** Refreshing a group that has no member sends no request, returns and
    records the time of the refresh. *)
Theorem SSMParameterGroup_refresh_empty self g env s :
  groups s !! self = Some g -> _parameters g = [] ->
  SSMParameterGroup_refresh self env s =
  ({| parameters := parameters s;
      groups := <[self := set_g_refreshable
                            (mark_refreshed (g_refreshable g) (utcnow env)) g]>
                  (groups s);
      next_loc := next_loc s; calls := calls s |}, Ok tt).
Proof.
  intros Hg Hd.
  unfold SSMParameterGroup_refresh, SSMParameterGroup__refresh, bind,
    lookup_group, ask, update_group.
  rewrite Hg, Hd. simpl. rewrite Hg. reflexivity.
Qed.

Lemma SSMParameterGroup_refresh_empty_witness :
  let g := {| g_refreshable := {| _last_refresh_time := None;
                                  _max_age := PNone; _max_age_delta := 0 |};
              g_with_decryption := PBool true; _parameters := [] |} in
  let s := fst (new_SSMParameterGroup [] ∅ example_env empty_state) in
  SSMParameterGroup_refresh 0%nat example_env s =
  ({| parameters := parameters s;
      groups := <[0%nat := set_g_refreshable
                             (mark_refreshed (g_refreshable g)
                                (utcnow example_env)) g]> (groups s);
      next_loc := next_loc s; calls := calls s |}, Ok tt).
Proof.
  apply SSMParameterGroup_refresh_empty; reflexivity.
Defined.

(** When the answer to the first batch starts with a name that is not a
    key of the group's dict, refreshing the group raises [KeyError] for
    that name after this one request: no value is set, no time is
    recorded and no later batch is requested. *)
Theorem SSMParameterGroup_refresh_KeyError self g env s response name value
    items :
  groups s !! self = Some g -> group_wf s g -> _parameters g <> [] ->
  get_parameters (ssm_client env) (take 10 (map fst (_parameters g)))
    (any_with_decryption s g) = Ok response ->
  Parameters response = (name, value) :: items ->
  name ∉ map fst (_parameters g) ->
  SSMParameterGroup_refresh self env s =
  ({| parameters := parameters s; groups := groups s; next_loc := next_loc s;
      calls := (calls s ++ [GetParameters (take 10 (map fst (_parameters g)))
                              (any_with_decryption s g)])%list |},
   Raise (KeyError name)).
Proof.
  intros Hg [Hnd Hall] Hne Hresp Hitems Hname.
  destruct (itervalues_wf _ env s Hall) as (ps & Eps & Hnames & Hps).
  destruct (_batch_first (map fst (_parameters g)) 10 ltac:(discriminate))
    as (batches & Hb).
  { destruct (_parameters g); [contradiction|discriminate]. }
  unfold SSMParameterGroup_refresh, SSMParameterGroup__refresh.
  rewrite (bind_Raise _ _ env s
             (with_calls
                (calls s ++ [GetParameters (take 10 (map fst (_parameters g)))
                               (any_with_decryption s g)]) s)
             (KeyError name)); [reflexivity|].
  rewrite (bind_Ok _ _ env s s g)
    by (unfold lookup_group; rewrite Hg; reflexivity).
  rewrite (bind_Ok _ _ env s s ps Eps). rewrite Hnames.
  rewrite (bind_Ok _ _ env s s _) by (unfold lift; rewrite Hb; reflexivity).
  apply bind_Raise. cbn [for_batches].
  unfold any_with_decryption, member_objects in *. rewrite <- Hps in *.
  unfold bind at 1, call_get_parameters. rewrite Hresp, Hitems.
  cbn [for_items]. apply bind_Raise. apply bind_Raise.
  unfold assign_item, bind, lookup_group. simpl. rewrite Hg. simpl.
  apply dict_get_None in Hname. rewrite Hname. reflexivity.
Qed.

Lemma SSMParameterGroup_refresh_KeyError_witness :
  let env := {| ssm_client := example_stray_client; utcnow := 1000 |} in
  SSMParameterGroup_refresh 0%nat env example_state =
  ({| parameters := parameters example_state;
      groups := groups example_state;
      next_loc := next_loc example_state;
      calls := (calls example_state
                ++ [GetParameters
                      (take 10 (map fst (_parameters example_group)))
                      (any_with_decryption example_state example_group)])%list |},
   Raise (KeyError "Z")).
Proof.
  apply (SSMParameterGroup_refresh_KeyError 0%nat example_group _ example_state
           {| Parameters := [("Z", "vz")]; InvalidParameters := [] |}
           "Z" "vz" []).
  - reflexivity.
  - apply (bool_decide_unpack _). vm_compute. exact I.
  - discriminate.
  - reflexivity.
  - reflexivity.
  - apply (bool_decide_unpack _). vm_compute. exact I.
Defined.

(** ** The invariant of the store *)

Lemma store_wf_fresh s (l : loc) :
  store_wf s -> (next_loc s <= l)%nat ->
  parameters s !! l = None /\ groups s !! l = None.
Proof.
  intros [Hp Hg] Hl. split.
  - destruct (parameters s !! l) as [p|] eqn:E; [|reflexivity].
    apply Hp in E. lia.
  - destruct (groups s !! l) as [g|] eqn:E; [|reflexivity].
    apply Hg in E. lia.
Qed.

Lemma store_wf_intro s :
  (forall l : loc, (next_loc s <= l)%nat ->
                   parameters s !! l = None /\ groups s !! l = None) ->
  store_wf s.
Proof.
  intros H. split; intros l x Hx;
    destruct (Nat.lt_ge_cases l (next_loc s)) as [?|Hge]; try assumption;
    destruct (H l Hge) as [Hp Hg]; congruence.
Qed.

Lemma group_wf_lookup s g k (l : loc) :
  group_wf s g -> (k, l) ∈ _parameters g ->
  exists p, parameters s !! l = Some p /\ _name p = k.
Proof.
  intros [_ H] Hin. rewrite Forall_forall in H. specialize (H _ Hin).
  simpl in H. destruct (parameters s !! l) as [p|]; [|discriminate].
  injection H as H. eauto.
Qed.

Lemma state_wf_member_lt s self g (l : loc) :
  state_wf s -> groups s !! self = Some g -> l ∈ map snd (_parameters g) ->
  (l < next_loc s)%nat.
Proof.
  intros [Hs Hgs] Hg Hl.
  apply list_elem_of_fmap in Hl as [[k l'] [-> Hin]]. simpl.
  destruct (group_wf_lookup s g k l' (Hgs _ _ Hg) Hin) as (p & Hp & _).
  destruct (Nat.lt_ge_cases l' (next_loc s)) as [?|Hge]; [assumption|].
  destruct (store_wf_fresh s l' Hs Hge) as [Hp' _]. congruence.
Qed.

Lemma SSMParameterGroup_refresh_shape self env s :
  let s' := fst (SSMParameterGroup_refresh self env s) in
  next_loc s' = next_loc s /\
  (forall l : loc,
     match parameters s !! l, parameters s' !! l with
     | Some p, Some p' =>
         p' = set_value (_value p') p /\ (l ∉ members s self -> p' = p)
     | None, None => True
     | _, _ => False
     end) /\
  (forall l : loc,
     _parameters <$> groups s' !! l = _parameters <$> groups s !! l).
Proof.
  pose proof (SSMParameterGroup__refresh_refreshes self env s)
    as (Hg & Hn & _ & Hp').
  rewrite SSMParameterGroup_refresh_run.
  destruct (SSMParameterGroup__refresh self env s) as [s1 [[]| |]];
    simpl in *; try (rewrite Hg; auto).
  destruct (groups s !! self) as [g|] eqn:Hself; simpl;
    [|rewrite Hg; auto].
  split; [exact Hn|]. split; [exact Hp'|].
  intros l. destruct (decide (self = l)) as [<-|Hne].
  - rewrite lookup_insert_eq, Hself. reflexivity.
  - rewrite lookup_insert_ne by exact Hne. reflexivity.
Qed.

(** Refreshing a group, however it ends, keeps the store well-formed:
    the keys of every group's dict stay pairwise distinct, each key stays
    the name of the object it maps to, and every object stays below the
    next free reference. *)
Theorem SSMParameterGroup_refresh_state_wf self env s :
  state_wf s -> state_wf (fst (SSMParameterGroup_refresh self env s)).
Proof.
  intros [Hs Hgs].
  pose proof (SSMParameterGroup_refresh_shape self env s) as (Hn & Hp & Hg).
  cbv zeta in *.
  destruct (SSMParameterGroup_refresh self env s) as [s' r]. simpl in *.
  split.
  - apply store_wf_intro. intros l Hl. rewrite Hn in Hl.
    destruct (store_wf_fresh s l Hs Hl) as [Hpl Hgl]. split.
    + specialize (Hp l). rewrite Hpl in Hp.
      destruct (parameters s' !! l); [contradiction|reflexivity].
    + specialize (Hg l). rewrite Hgl in Hg.
      destruct (groups s' !! l); [discriminate|reflexivity].
  - intros l h Hh. specialize (Hg l). rewrite Hh in Hg.
    destruct (groups s !! l) as [h0|] eqn:Hh0; [|discriminate].
    injection Hg as Hd. destruct (Hgs _ _ Hh0) as [Hnd Hall].
    split; rewrite Hd; [exact Hnd|].
    eapply Forall_impl; [exact Hall|]. intros [k l'] H. simpl in *.
    specialize (Hp l').
    destruct (parameters s !! l') as [p|], (parameters s' !! l') as [p'|];
      try tauto; try discriminate.
    destruct Hp as [-> _]. exact H.
Qed.

Lemma SSMParameterGroup_refresh_state_wf_witness :
  state_wf (fst (SSMParameterGroup_refresh 0%nat example_env example_state)).
Proof.
  apply SSMParameterGroup_refresh_state_wf.
  apply (bool_decide_unpack _). vm_compute. exact I.
Defined.

(** ** Construction and registration *)

Lemma new_SSMParameter_failure args kwargs env s :
  let (s', r) := new_SSMParameter args kwargs env s in
  match r with
  | Ok l => l = next_loc s
  | _ => s' = s
  end.
Proof.
  unfold new_SSMParameter, bind, lift.
  destruct (bind_arguments _ _ _) as [vs| |]; simpl; try reflexivity.
  destruct vs as [|v1 [|v2 [|v3 [|v4 vs]]]]; simpl; try reflexivity.
  destruct (SSMParameter__init__ v1 v2 v3); reflexivity.
Qed.

Lemma new_SSMParameter_Ok args kwargs env s s' l :
  new_SSMParameter args kwargs env s = (s', Ok l) ->
  exists p, l = next_loc s /\
    s' = {| parameters := <[next_loc s := p]> (parameters s);
            groups := groups s; next_loc := S (next_loc s);
            calls := calls s |} /\
    _value p = None /\ _group p = None /\ _name p <> "" /\
    _last_refresh_time (p_refreshable p) = None.
Proof.
  unfold new_SSMParameter, bind, lift.
  destruct (bind_arguments _ _ _) as [vs| |]; simpl; try discriminate.
  destruct vs as [|v1 [|v2 [|v3 [|v4 vs]]]]; simpl; try discriminate.
  destruct (SSMParameter__init__ v1 v2 v3) as [p| |] eqn:Hinit;
    try discriminate.
  unfold alloc_parameter. intros [= <- <-]. exists p.
  split; [reflexivity|]. split; [reflexivity|].
  unfold SSMParameter__init__, Refreshable__init__ in Hinit.
  destruct (Datetime.timedelta _); simpl in Hinit; try discriminate.
  destruct (truthy v1) eqn:Ht; simpl in Hinit; try discriminate.
  destruct v1; try discriminate. injection Hinit as <-. simpl.
  repeat split. simpl in Ht. intros ->. discriminate.
Qed.

(** Constructing a parameter, with a name that is a string or falsy,
    sends no request.  When the constructor raises, for an empty name or
    a [max_age] that is no duration, no object comes to exist and
    nothing changes; when it returns, the one new object has a non-empty
    name, no cached value, no group and no refresh time, and every other
    object is as it was.  (For a truthy name that is not a string the
    model answers [Undef], and nothing is said.) *)
Theorem new_SSMParameter_effect args kwargs env s :
  let (s', r) := new_SSMParameter args kwargs env s in
  match r with
  | Ok l =>
      l = next_loc s /\
      exists p,
        s' = {| parameters := <[l := p]> (parameters s); groups := groups s;
                next_loc := S (next_loc s); calls := calls s |} /\
        _name p <> "" /\ _value p = None /\ _group p = None /\
        _last_refresh_time (p_refreshable p) = None
  | Raise _ => s' = s
  | Undef => True
  end.
Proof.
  pose proof (new_SSMParameter_failure args kwargs env s) as Hf.
  destruct (new_SSMParameter args kwargs env s) as [s' [l| |]] eqn:E;
    [|exact Hf|exact I].
  apply new_SSMParameter_Ok in E as (p & -> & -> & Hv & Hg & Hn & Ht).
  split; [reflexivity|]. exists p. auto.
Qed.

Lemma SSMParameterGroup_parameter_Ok self args kwargs env s s' l :
  SSMParameterGroup_parameter self args kwargs env s = (s', Ok l) ->
  exists g p,
    groups s !! self = Some g /\ l = next_loc s /\
    _group p = Some self /\ _value p = None /\ _name p <> "" /\
    _last_refresh_time (p_refreshable p) = None /\
    s' = {| parameters := <[l := p]> (parameters s);
            groups := <[self := set_parameters
                                  (dict_set (_name p) l (_parameters g)) g]>
                        (groups s);
            next_loc := S (next_loc s);
            calls := calls s |}.
Proof.
  unfold SSMParameterGroup_parameter.
  destruct (kwargs !! "max_age"); [discriminate|].
  unfold bind at 1, lookup_group.
  destruct (groups s !! self) as [g|] eqn:Hg; [|discriminate].
  unfold bind at 1.
  destruct (new_SSMParameter args _ env s) as [s1 [l1| |]] eqn:Hnew;
    try discriminate.
  apply new_SSMParameter_Ok in Hnew as (p & -> & -> & Hv & _ & Hn & Ht).
  unfold bind, update_parameter, lookup_parameter, update_group. simpl.
  rewrite lookup_insert_eq. simpl. rewrite lookup_insert_eq. simpl.
  rewrite Hg. intros [= <- <-].
  exists g, (set_group (Some self) p). rewrite insert_insert_eq.
  repeat split; assumption.
Qed.

Lemma SSMParameterGroup_parameter_not_Ok self args kwargs env s :
  let (s', r) := SSMParameterGroup_parameter self args kwargs env s in
  match r with
  | Ok l => True
  | _ => s' = s
  end.
Proof.
  unfold SSMParameterGroup_parameter.
  destruct (kwargs !! "max_age"); [reflexivity|].
  unfold bind at 1, lookup_group.
  destruct (groups s !! self) as [g|] eqn:Hg; [|reflexivity].
  unfold bind at 1.
  pose proof (new_SSMParameter_failure args (member_kwargs g kwargs) env s) as H.
  unfold member_kwargs in H.
  destruct (new_SSMParameter args _ env s) as [s1 [l| |]] eqn:Hnew;
    try exact H.
  apply new_SSMParameter_Ok in Hnew as (p & -> & -> & _).
  unfold bind, update_parameter, lookup_parameter, update_group. simpl.
  rewrite lookup_insert_eq. simpl. rewrite lookup_insert_eq. simpl.
  rewrite Hg. exact I.
Qed.

(** [parameter], called with a name that is a string or falsy, sends no
    request: the value is not fetched at registration.  When it raises,
    for a [max_age] keyword, an empty name or arguments that cannot be
    bound, nothing was created and nothing was registered.  When it
    returns, exactly one object was created: it is linked to the group,
    it has no cached value, and the dict of the group maps its name to
    it; every other object and every other group is as it was.  (For a
    truthy name that is not a string the model answers [Undef], and
    nothing is said.) *)
Theorem SSMParameterGroup_parameter_failure self args kwargs env s :
  let (s', r) := SSMParameterGroup_parameter self args kwargs env s in
  match r with
  | Ok l =>
      l = next_loc s /\ next_loc s' = S (next_loc s) /\ calls s' = calls s /\
      (exists p g',
         parameters s' !! l = Some p /\ _group p = Some self /\
         _value p = None /\ groups s' !! self = Some g' /\
         dict_get (_parameters g') (_name p) = Some l) /\
      (forall l' : loc, l' <> l -> parameters s' !! l' = parameters s !! l') /\
      (forall l' : loc, l' <> self -> groups s' !! l' = groups s !! l')
  | Raise _ => s' = s
  | Undef => True
  end.
Proof.
  pose proof (SSMParameterGroup_parameter_not_Ok self args kwargs env s) as Hf.
  destruct (SSMParameterGroup_parameter self args kwargs env s)
    as [s' [l| |]] eqn:E; [|exact Hf|exact I].
  apply SSMParameterGroup_parameter_Ok
    in E as (g & p & Hg & -> & Hgr & Hv & _ & _ & ->).
  simpl. repeat split.
  - exists p. eexists. rewrite !lookup_insert_eq.
    repeat split; try assumption. apply dict_get_set_eq.
  - intros l' Hne. apply lookup_insert_ne. congruence.
  - intros l' Hne. apply lookup_insert_ne. congruence.
Qed.

Lemma member_kwargs_lookup g kwargs :
  dom kwargs ⊆ ({["with_decryption"]} : gset string) ->
  let kwargs' := member_kwargs g kwargs in
  kwargs' !! "param_name" = None /\ kwargs' !! "max_age" = None /\
  kwargs' !! "with_decryption"
  = Some (default (g_with_decryption g) (kwargs !! "with_decryption")) /\
  dom kwargs' ⊆ ({["with_decryption"]} : gset string).
Proof.
  intros Hdom. unfold member_kwargs.
  assert (Hp : kwargs !! "param_name" = None).
  { apply not_elem_of_dom. intros H. apply Hdom in H.
    apply elem_of_singleton in H. discriminate. }
  assert (Hm : kwargs !! "max_age" = None).
  { apply not_elem_of_dom. intros H. apply Hdom in H.
    apply elem_of_singleton in H. discriminate. }
  destruct (kwargs !! "with_decryption") as [w|] eqn:Hw; simpl.
  - auto.
  - rewrite !lookup_insert_ne by discriminate. rewrite lookup_insert_eq.
    repeat split; try assumption. rewrite dom_insert.
    intros x Hx. apply elem_of_union in Hx as [Hx|Hx]; [exact Hx|].
    apply Hdom. exact Hx.
Qed.

Lemma signature_accepts (kwargs : gmap string pyval) :
  dom kwargs ⊆ ({["with_decryption"]} : gset string) ->
  dom kwargs ⊆ (list_to_set (map fst SSMParameter_signature) : gset string).
Proof.
  intros Hdom x Hx. apply Hdom in Hx. apply elem_of_singleton in Hx as ->.
  apply elem_of_list_to_set. simpl. right. right. left.
Qed.

Lemma bind_arguments_name name kwargs w :
  kwargs !! "param_name" = None -> kwargs !! "max_age" = None ->
  kwargs !! "with_decryption" = Some w ->
  dom kwargs ⊆ ({["with_decryption"]} : gset string) ->
  bind_arguments SSMParameter_signature [name] kwargs = Ok [name; PNone; w].
Proof.
  intros Hp Hm Hw Hdom. unfold bind_arguments.
  rewrite (bool_decide_eq_true_2 _ (signature_accepts kwargs Hdom)). simpl.
  rewrite Hp, Hm, Hw. reflexivity.
Qed.

Lemma bind_arguments_name_max_age name max_age kwargs w :
  kwargs !! "param_name" = None -> kwargs !! "max_age" = None ->
  kwargs !! "with_decryption" = Some w ->
  dom kwargs ⊆ ({["with_decryption"]} : gset string) ->
  bind_arguments SSMParameter_signature [name; max_age] kwargs
  = Ok [name; max_age; w].
Proof.
  intros Hp Hm Hw Hdom. unfold bind_arguments.
  rewrite (bool_decide_eq_true_2 _ (signature_accepts kwargs Hdom)). simpl.
  rewrite Hp, Hm, Hw. reflexivity.
Qed.

Lemma SSMParameterGroup_parameter_run self g args kwargs p env s :
  groups s !! self = Some g -> kwargs !! "max_age" = None ->
  (exists vs,
     bind_arguments SSMParameter_signature args (member_kwargs g kwargs)
     = Ok vs /\
     match vs with
     | [a; b; c] => SSMParameter__init__ a b c = Ok p
     | _ => False
     end) ->
  SSMParameterGroup_parameter self args kwargs env s =
  ({| parameters := <[next_loc s := set_group (Some self) p]> (parameters s);
      groups := <[self := set_parameters
                            (dict_set (_name p) (next_loc s) (_parameters g)) g]>
                  (groups s);
      next_loc := S (next_loc s);
      calls := calls s |}, Ok (next_loc s)).
Proof.
  intros Hg Hm (vs & Hvs & Hinit). unfold SSMParameterGroup_parameter.
  rewrite Hm. unfold bind at 1, lookup_group. rewrite Hg.
  unfold bind at 1, new_SSMParameter, bind at 1, lift.
  unfold member_kwargs in Hvs. rewrite Hvs.
  destruct vs as [|a [|b [|c [|? ?]]]]; try contradiction.
  unfold bind at 1. rewrite Hinit. unfold alloc_parameter.
  unfold bind, update_parameter, lookup_parameter, update_group. simpl.
  rewrite lookup_insert_eq. simpl. rewrite lookup_insert_eq. simpl.
  rewrite Hg, insert_insert_eq. reflexivity.
Qed.

Lemma SSMParameterGroup_parameter_name_run self g name kwargs env s :
  groups s !! self = Some g -> name <> "" ->
  dom kwargs ⊆ ({["with_decryption"]} : gset string) ->
  SSMParameterGroup_parameter self [PStr name] kwargs env s =
  ({| parameters :=
        <[next_loc s := member_by_name self g name kwargs]> (parameters s);
      groups := <[self := set_parameters
                            (dict_set name (next_loc s) (_parameters g)) g]>
                  (groups s);
      next_loc := S (next_loc s);
      calls := calls s |}, Ok (next_loc s)).
Proof.
  intros Hg Hname Hdom.
  destruct (member_kwargs_lookup g kwargs Hdom) as (Hp & Hm & Hw & Hdom').
  assert (Hm0 : kwargs !! "max_age" = None).
  { apply not_elem_of_dom. intros H. apply Hdom in H.
    apply elem_of_singleton in H. discriminate. }
  rewrite (SSMParameterGroup_parameter_run self g _ _
             (set_group None (member_by_name self g name kwargs))
             env s Hg Hm0); [reflexivity|].
  eexists. split; [apply bind_arguments_name; eassumption|].
  unfold SSMParameter__init__. simpl.
  destruct (String.eqb_spec name "") as [->|_]; [contradiction|]. reflexivity.
Qed.

(** [parameter], called with a non-empty name and at most a
    [with_decryption] keyword, returns a new member that is linked to
    the group and registered under its name, with no cached value.  Its
    [with_decryption] is the keyword's value if one is given and the
    group's otherwise; its [max_age] is [None] whatever the [max_age]
    of the group is. *)
Theorem SSMParameterGroup_parameter_by_name self g name kwargs env s :
  groups s !! self = Some g -> name <> "" ->
  dom kwargs ⊆ ({["with_decryption"]} : gset string) ->
  exists s' g',
    SSMParameterGroup_parameter self [PStr name] kwargs env s
    = (s', Ok (next_loc s)) /\
    parameters s' !! next_loc s =
      Some {| p_refreshable := {| _last_refresh_time := None;
                                  _max_age := PNone; _max_age_delta := 0 |};
              _name := name; _value := None;
              _with_decryption :=
                default (g_with_decryption g) (kwargs !! "with_decryption");
              _group := Some self |} /\
    groups s' !! self = Some g' /\
    dict_get (_parameters g') name = Some (next_loc s) /\
    g_refreshable g' = g_refreshable g.
Proof.
  intros Hg Hname Hdom.
  rewrite (SSMParameterGroup_parameter_name_run self g name kwargs env s
             Hg Hname Hdom).
  eexists. eexists. split; [reflexivity|]. simpl.
  rewrite !lookup_insert_eq. repeat split. apply dict_get_set_eq.
Qed.

Lemma SSMParameterGroup_parameter_by_name_witness :
  exists s' g',
    SSMParameterGroup_parameter 0%nat [PStr "F"] {["with_decryption" := PBool false]}
      example_env example_state
    = (s', Ok (next_loc example_state)) /\
    parameters s' !! next_loc example_state =
      Some {| p_refreshable := {| _last_refresh_time := None;
                                  _max_age := PNone; _max_age_delta := 0 |};
              _name := "F"; _value := None;
              _with_decryption :=
                default (g_with_decryption example_group)
                  (({["with_decryption" := PBool false]} : gmap string pyval)
                     !! "with_decryption");
              _group := Some 0%nat |} /\
    groups s' !! 0%nat = Some g' /\
    dict_get (_parameters g') "F" = Some (next_loc example_state) /\
    g_refreshable g' = g_refreshable example_group.
Proof.
  apply SSMParameterGroup_parameter_by_name.
  - reflexivity.
  - discriminate.
  - apply (bool_decide_unpack _). vm_compute. exact I.
Defined.

(** The guard of [parameter] looks at the keyword arguments only: a
    [max_age] passed as the second positional argument is accepted, and
    the new member carries it as its own [max_age]. *)
Theorem SSMParameterGroup_parameter_positional_max_age self g name d env s :
  groups s !! self = Some g -> name <> "" ->
  Datetime.timedelta_min <= d * 1000000 <= Datetime.timedelta_max ->
  exists s' g',
    SSMParameterGroup_parameter self [PStr name; PInt d] ∅ env s
    = (s', Ok (next_loc s)) /\
    parameters s' !! next_loc s =
      Some {| p_refreshable := {| _last_refresh_time := None;
                                  _max_age := PInt d;
                                  _max_age_delta := d * 1000000 |};
              _name := name; _value := None;
              _with_decryption := g_with_decryption g;
              _group := Some self |} /\
    groups s' !! self = Some g' /\
    dict_get (_parameters g') name = Some (next_loc s).
Proof.
  intros Hg Hname Hrange.
  assert (Hdelta : Datetime.timedelta (py_or (PInt d) (PInt 0))
                   = Ok (d * 1000000)).
  { unfold py_or. simpl. destruct (Z.eqb_spec d 0) as [->|_]; [reflexivity|].
    simpl. unfold Datetime.timedelta_of_seconds.
    destruct (Z.leb_spec Datetime.timedelta_min (d * 1000000)); [|lia].
    destruct (Z.leb_spec (d * 1000000) Datetime.timedelta_max); [|lia].
    reflexivity. }
  assert (Hdom : dom (∅ : gmap string pyval)
                 ⊆ ({["with_decryption"]} : gset string)).
  { intros x Hx. rewrite dom_empty in Hx. apply elem_of_empty in Hx.
    contradiction. }
  destruct (member_kwargs_lookup g ∅ Hdom) as (Hp & Hm & Hw & Hdom').
  rewrite (SSMParameterGroup_parameter_run self g _ _
             {| p_refreshable := {| _last_refresh_time := None;
                                    _max_age := PInt d;
                                    _max_age_delta := d * 1000000 |};
                _name := name; _value := None;
                _with_decryption := g_with_decryption g;
                _group := None |} env s Hg (lookup_empty _)).
  - eexists. eexists. split; [reflexivity|]. simpl.
    rewrite !lookup_insert_eq. repeat split. apply dict_get_set_eq.
  - eexists. split; [apply bind_arguments_name_max_age; eassumption|].
    unfold SSMParameter__init__, Refreshable__init__. rewrite Hdelta.
    simpl. destruct (String.eqb_spec name "") as [->|_]; [contradiction|].
    reflexivity.
Qed.

Lemma SSMParameterGroup_parameter_positional_max_age_witness :
  exists s' g',
    SSMParameterGroup_parameter 0%nat [PStr "F"; PInt 30] ∅ example_env
      example_state
    = (s', Ok (next_loc example_state)) /\
    parameters s' !! next_loc example_state =
      Some {| p_refreshable := {| _last_refresh_time := None;
                                  _max_age := PInt 30;
                                  _max_age_delta := 30 * 1000000 |};
              _name := "F"; _value := None;
              _with_decryption := g_with_decryption example_group;
              _group := Some 0%nat |} /\
    groups s' !! 0%nat = Some g' /\
    dict_get (_parameters g') "F" = Some (next_loc example_state).
Proof.
  apply SSMParameterGroup_parameter_positional_max_age.
  - reflexivity.
  - discriminate.
  - vm_compute. split; discriminate.
Defined.

Lemma group_wf_alloc s g (l : loc) p d :
  store_wf s -> l = next_loc s -> group_wf s g ->
  group_wf {| parameters := <[l := p]> (parameters s); groups := d;
              next_loc := S (next_loc s); calls := calls s |} g.
Proof.
  intros Hs -> [Hnd Hall]. split; [exact Hnd|]. simpl.
  eapply Forall_impl; [exact Hall|]. intros [k l'] H. simpl in *.
  destruct (decide (next_loc s = l')) as [<-|Hne].
  - destruct (store_wf_fresh s (next_loc s) Hs (le_n _)) as [Hp _].
    rewrite Hp in H. discriminate.
  - rewrite lookup_insert_ne by exact Hne. exact H.
Qed.

(** Registering a new object keeps the store well-formed. *)
Lemma state_wf_register s self g p :
  state_wf s -> groups s !! self = Some g ->
  state_wf
    {| parameters := <[next_loc s := p]> (parameters s);
       groups := <[self := set_parameters
                             (dict_set (_name p) (next_loc s) (_parameters g))
                             g]> (groups s);
       next_loc := S (next_loc s);
       calls := calls s |}.
Proof.
  intros [Hs Hgs] Hg. split.
  - apply store_wf_intro. intros l Hl. simpl in *.
    destruct (store_wf_fresh s l Hs ltac:(lia)) as [Hp Hgl]. split.
    + rewrite lookup_insert_ne by lia. exact Hp.
    + rewrite lookup_insert_ne; [exact Hgl|]. intros <-. congruence.
  - intros l h. simpl. destruct (decide (self = l)) as [<-|Hne].
    + rewrite lookup_insert_eq. intros [= <-].
      pose proof (Hgs _ _ Hg) as Hg_wf.
      pose proof (group_wf_alloc s g (next_loc s) p
                    (<[self := set_parameters
                        (dict_set (_name p) (next_loc s) (_parameters g)) g]>
                       (groups s)) Hs eq_refl Hg_wf) as [Hnd Hall].
      split; simpl.
      * apply dict_set_NoDup. exact Hnd.
      * apply Forall_forall. intros [k l'] Hin. simpl.
        apply dict_set_elem_of in Hin as [[-> ->]|Hin].
        -- rewrite lookup_insert_eq. reflexivity.
        -- rewrite Forall_forall in Hall. apply (Hall (k, l')). exact Hin.
    + rewrite lookup_insert_ne by exact Hne. intros Hh.
      apply group_wf_alloc; [exact Hs | reflexivity | exact (Hgs _ _ Hh)].
Qed.

(** On a well-formed store, [parameter], called with a name that is a
    string or falsy, keeps the store well-formed and, when it returns,
    has registered the new member: the dict of the group maps the
    member's name to the new object, the entries under every other name
    are as before (an entry under the same name is replaced), the keys
    stay pairwise distinct, and every object that existed before is
    unchanged in the store.  When it raises, the store is as it was. *)
Theorem SSMParameterGroup_parameter_state_wf self args kwargs env s :
  state_wf s ->
  let (s', r) := SSMParameterGroup_parameter self args kwargs env s in
  match r with
  | Ok l =>
      state_wf s' /\
      exists g g' p,
        groups s !! self = Some g /\ groups s' !! self = Some g' /\
        parameters s' !! l = Some p /\
        dict_get (_parameters g') (_name p) = Some l /\
        (forall k, k <> _name p ->
                   dict_get (_parameters g') k = dict_get (_parameters g) k) /\
        (forall (l' : loc) p',
           parameters s !! l' = Some p' -> parameters s' !! l' = Some p')
  | Raise _ => s' = s /\ state_wf s'
  | Undef => True
  end.
Proof.
  intros Hwf.
  pose proof (SSMParameterGroup_parameter_not_Ok self args kwargs env s) as Hf.
  destruct (SSMParameterGroup_parameter self args kwargs env s)
    as [s' [l| |]] eqn:E; [|subst s'; auto|exact I].
  clear Hf.
  apply SSMParameterGroup_parameter_Ok
    in E as (g & p & Hg & -> & _ & _ & _ & _ & ->).
  split; [exact (state_wf_register s self g p Hwf Hg)|].
  destruct Hwf as [Hs Hgs].
  exists g. eexists. exists p. simpl. rewrite !lookup_insert_eq.
  split; [exact Hg|]. split; [reflexivity|]. split; [reflexivity|]. simpl.
  split; [apply dict_get_set_eq|]. split.
  - intros k Hk. apply dict_get_set_ne. congruence.
  - intros l' p' Hl'. rewrite lookup_insert_ne; [exact Hl'|].
    intros <-. destruct (store_wf_fresh s (next_loc s) Hs (le_n _)) as [Hp _].
    congruence.
Qed.

Lemma SSMParameterGroup_parameter_state_wf_witness :
  let (s', r) := SSMParameterGroup_parameter 0%nat [PStr "A"] ∅ example_env
                   example_state in
  match r with
  | Ok l =>
      state_wf s' /\
      exists g g' p,
        groups example_state !! 0%nat = Some g /\ groups s' !! 0%nat = Some g' /\
        parameters s' !! l = Some p /\
        dict_get (_parameters g') (_name p) = Some l /\
        (forall k, k <> _name p ->
                   dict_get (_parameters g') k = dict_get (_parameters g) k) /\
        (forall (l' : loc) p',
           parameters example_state !! l' = Some p' ->
           parameters s' !! l' = Some p')
  | Raise _ => s' = example_state /\ state_wf s'
  | Undef => True
  end.
Proof.
  apply SSMParameterGroup_parameter_state_wf.
  apply (bool_decide_unpack _). vm_compute. exact I.
Defined.

(** Registering a second object under a name that is taken replaces the
    first one in the group's dict, at the position of the name: no key
    is added, the first object still exists but is no longer referred
    to by the group, and refreshing the group, against any client,
    leaves it as it is. *)
Theorem SSMParameterGroup_parameter_replaces self g name kwargs1 kwargs2
    env s env' :
  state_wf s -> groups s !! self = Some g -> name <> "" ->
  dom kwargs1 ⊆ ({["with_decryption"]} : gset string) ->
  dom kwargs2 ⊆ ({["with_decryption"]} : gset string) ->
  let old := next_loc s in
  let new := S (next_loc s) in
  let s1 := fst (SSMParameterGroup_parameter self [PStr name] kwargs1 env s) in
  let s2 := fst (SSMParameterGroup_parameter self [PStr name] kwargs2 env s1) in
  exists g1 g2,
    groups s1 !! self = Some g1 /\ groups s2 !! self = Some g2 /\
    dict_get (_parameters g1) name = Some old /\
    dict_get (_parameters g2) name = Some new /\
    map fst (_parameters g2) = map fst (_parameters g1) /\
    (old ∉ map snd (_parameters g2)) /\
    is_Some (parameters s2 !! old) /\
    parameters (fst (SSMParameterGroup_refresh self env' s2)) !! old
    = parameters s2 !! old.
Proof.
  intros Hwf Hg Hname Hd1 Hd2 old new s1 s2. subst s1 s2.
  rewrite (SSMParameterGroup_parameter_name_run self g name kwargs1 env s
             Hg Hname Hd1). cbn [fst].
  set (g1 := set_parameters (dict_set name old (_parameters g)) g).
  match goal with
  | |- context [SSMParameterGroup_parameter _ _ kwargs2 env ?st] =>
      set (s1 := st)
  end.
  assert (Hg1 : groups s1 !! self = Some g1) by apply lookup_insert_eq.
  rewrite (SSMParameterGroup_parameter_name_run self g1 name kwargs2 env s1
             Hg1 Hname Hd2). cbn [fst].
  set (g2 := set_parameters (dict_set name new (_parameters g1)) g1).
  match goal with
  | |- context [SSMParameterGroup_refresh _ env' ?st] => set (s2 := st)
  end.
  assert (Hg2 : groups s2 !! self = Some g2) by apply lookup_insert_eq.
  assert (Hd : _parameters g2 = dict_set name new (_parameters g)).
  { unfold g2, g1. simpl. apply dict_set_dict_set. }
  assert (Hold : old ∉ map snd (_parameters g2)).
  { rewrite Hd. intros H. apply dict_set_values in H as [H|H].
    - unfold old, new in H. lia.
    - apply (state_wf_member_lt s self g old Hwf Hg) in H. unfold old in H. lia. }
  assert (Hsome : is_Some (parameters s2 !! old)).
  { unfold s2, s1. simpl. rewrite lookup_insert_ne by (unfold old; lia).
    rewrite lookup_insert_eq. eauto. }
  exists g1, g2. split; [exact Hg1|]. split; [exact Hg2|].
  split; [apply dict_get_set_eq|]. split; [apply dict_get_set_eq|].
  split; [|split; [exact Hold|split; [exact Hsome|]]]; clearbody s2.
  - unfold g2. simpl. rewrite dict_set_keys, decide_True; [reflexivity|].
    apply (list_elem_of_fmap_2 fst _ (name, old)).
    apply dict_get_elem_of. apply dict_get_set_eq.
  - pose proof (SSMParameterGroup_refresh_shape self env' s2) as (_ & Hp & _).
    specialize (Hp old). unfold members in Hp. rewrite Hg2 in Hp.
    destruct (parameters s2 !! old) as [p|],
      (parameters (fst (SSMParameterGroup_refresh self env' s2)) !! old)
        as [p'|]; try tauto.
    destruct Hp as [_ Hp]. rewrite (Hp Hold). reflexivity.
Qed.

Lemma SSMParameterGroup_parameter_replaces_witness :
  let old := next_loc example_state in
  let new := S (next_loc example_state) in
  let s1 := fst (SSMParameterGroup_parameter 0%nat [PStr "F"] ∅ example_env
                   example_state) in
  let s2 := fst (SSMParameterGroup_parameter 0%nat [PStr "F"] ∅ example_env
                   s1) in
  exists g1 g2,
    groups s1 !! 0%nat = Some g1 /\ groups s2 !! 0%nat = Some g2 /\
    dict_get (_parameters g1) "F" = Some old /\
    dict_get (_parameters g2) "F" = Some new /\
    map fst (_parameters g2) = map fst (_parameters g1) /\
    (old ∉ map snd (_parameters g2)) /\
    is_Some (parameters s2 !! old) /\
    parameters (fst (SSMParameterGroup_refresh 0%nat example_env s2)) !! old
    = parameters s2 !! old.
Proof.
  apply (SSMParameterGroup_parameter_replaces 0%nat example_group).
  - apply (bool_decide_unpack _). vm_compute. exact I.
  - reflexivity.
  - discriminate.
  - apply (bool_decide_unpack _). vm_compute. exact I.
  - apply (bool_decide_unpack _). vm_compute. exact I.
Defined.

(** ** Refreshing a parameter *)

(** [refresh] on a member of a group is [refresh] on the group, then
    the member's own timestamp if the group's refresh returned. *)
Lemma SSMParameter_refresh_grouped remote member p self g env s :
  answers remote env -> parameters s !! member = Some p ->
  _group p = Some self -> groups s !! self = Some g -> group_wf s g ->
  exists s',
    SSMParameterGroup_refresh self env s =
      (s', match invalid_names_of remote g with
           | [] => Ok tt
           | names => Raise (InvalidParam (String.concat "," names))
           end) /\
    (forall l : loc,
       _value <$> parameters s' !! l
       = value_after_refresh remote g l <$> parameters s !! l) /\
    match invalid_names_of remote g with
    | [] => exists p',
          parameters s' !! member = Some p' /\
          SSMParameter_refresh member env s =
            ({| parameters :=
                  <[member := set_p_refreshable
                      (mark_refreshed (p_refreshable p') (utcnow env)) p']>
                    (parameters s');
                groups := groups s'; next_loc := next_loc s';
                calls := calls s' |}, Ok tt)
    | names =>
        SSMParameter_refresh member env s =
          (s', Raise (InvalidParam (String.concat "," names)))
    end.
Proof.
  intros Hclient Hp Hgrp Hg Hwf.
  destruct (SSMParameterGroup_refresh_store remote self g env s Hclient Hg Hwf)
    as (batches & m & _ & Hm & Hdom & E).
  cbv zeta in E.
  assert (Hr : SSMParameter__refresh member env s
               = SSMParameterGroup_refresh self env s).
  { unfold SSMParameter__refresh, bind at 1, lookup_parameter.
    rewrite Hp, Hgrp. reflexivity. }
  unfold SSMParameter_refresh.
  destruct (invalid_names_of remote g) as [|n names].
  - eexists. split; [exact E|]. split; [exact Hm|].
    destruct (proj2 (Hdom member)) as [p' Hp']; [rewrite Hp; eauto|].
    exists p'. split; [exact Hp'|].
    rewrite <- Hr in E. rewrite (bind_Ok _ _ _ _ _ _ E).
    unfold bind, ask, update_parameter. simpl. rewrite Hp'. reflexivity.
  - eexists. split; [exact E|]. split; [exact Hm|].
    rewrite <- Hr in E. rewrite (bind_Raise _ _ _ _ _ _ E). reflexivity.
Qed.

(** [refresh] on a member of a well-formed group, against a store of
    values, refreshes the whole group: every member that the store
    knows, not only the one it was called on, takes the value of the
    store, and the cached value of every other object is as it was. *)
Theorem SSMParameter_refresh_grouped_values remote member p self g env s
    (l : loc) :
  answers remote env -> parameters s !! member = Some p ->
  _group p = Some self -> groups s !! self = Some g -> group_wf s g ->
  _value <$> parameters (fst (SSMParameter_refresh member env s)) !! l
  = (fun p => if decide ((_name p, l) ∈ _parameters g)
              then match remote (_name p) with
                   | Some v => Some v
                   | None => _value p
                   end
              else _value p) <$> parameters s !! l.
Proof.
  intros Hclient Hp Hgrp Hg Hwf.
  destruct (SSMParameter_refresh_grouped remote member p self g env s
              Hclient Hp Hgrp Hg Hwf) as (s' & E & Hv & H).
  specialize (Hv l). unfold value_after_refresh, refreshed_value in Hv.
  destruct (invalid_names_of remote g) as [|n names].
  - destruct H as (p' & Hp' & ->). simpl. rewrite <- Hv.
    destruct (decide (member = l)) as [<-|Hne].
    + rewrite lookup_insert_eq, Hp'. reflexivity.
    + rewrite lookup_insert_ne by exact Hne. reflexivity.
  - rewrite H. exact Hv.
Qed.

Lemma SSMParameter_refresh_grouped_values_witness :
  _value <$> parameters (fst (SSMParameter_refresh 2%nat example_env
                                example_state)) !! 1%nat
  = (fun p => if decide ((_name p, 1%nat) ∈ _parameters example_group)
              then match example_remote (_name p) with
                   | Some v => Some v
                   | None => _value p
                   end
              else _value p) <$> parameters example_state !! 1%nat.
Proof.
  apply (SSMParameter_refresh_grouped_values example_remote 2%nat
           (example_parameter "B" PNone 0 (Some 0%nat)) 0%nat example_group).
  - intros names with_decryption. reflexivity.
  - reflexivity.
  - reflexivity.
  - reflexivity.
  - apply (bool_decide_unpack _). vm_compute. exact I.
Defined.

Lemma SSMParameter_refresh_standalone self p env s :
  parameters s !! self = Some p -> _group p = None ->
  SSMParameter_refresh self env s =
  let s1 := with_calls
              (calls s ++ [GetParameter (_name p) (_with_decryption p)]) s in
  match get_parameter (ssm_client env) (_name p) (_with_decryption p) with
  | Ok v => (with_parameters (<[self := refreshed env v p]> (parameters s)) s1,
             Ok tt)
  | Raise e => (s1, Raise (reraised p e))
  | Undef => (s1, Undef)
  end.
Proof.
  intros Hp Hg.
  unfold SSMParameter_refresh, SSMParameter__refresh, bind at 1, bind at 1,
    lookup_parameter.
  rewrite Hp, Hg.
  unfold try_except_ClientError, bind at 1, call_get_parameter.
  destruct (get_parameter _ _ _) as [v|e|]; simpl.
  - unfold update_parameter, bind, ask. simpl. rewrite Hp. simpl.
    rewrite lookup_insert_eq, insert_insert_eq. reflexivity.
  - destruct e; try reflexivity. simpl.
    destruct (String.eqb code "ParameterNotFound"); reflexivity.
  - reflexivity.
Qed.

Lemma reraised_cases p e :
  (e = ClientError "ParameterNotFound" -> reraised p e = InvalidParam (_name p))
  /\ (e <> ClientError "ParameterNotFound" -> reraised p e = e).
Proof.
  split.
  - intros ->. reflexivity.
  - intros Hne. destruct e; try reflexivity. simpl.
    destruct (String.eqb_spec code "ParameterNotFound") as [->|_];
      [contradiction|reflexivity].
Qed.

(** [refresh] on a parameter that belongs to no group, when the client
    answers, sends exactly one [get_parameter] request with the
    parameter's name and decryption flag, caches the answer and records
    the time; nothing else changes. *)
Theorem SSMParameter_refresh_standalone_Ok self p v env s :
  parameters s !! self = Some p -> _group p = None ->
  get_parameter (ssm_client env) (_name p) (_with_decryption p) = Ok v ->
  SSMParameter_refresh self env s =
  ({| parameters :=
        <[self := {| p_refreshable :=
                       {| _last_refresh_time := Some (utcnow env);
                          _max_age := _max_age (p_refreshable p);
                          _max_age_delta := _max_age_delta (p_refreshable p) |};
                     _name := _name p; _value := Some v;
                     _with_decryption := _with_decryption p;
                     _group := None |}]> (parameters s);
      groups := groups s; next_loc := next_loc s;
      calls := (calls s ++ [GetParameter (_name p) (_with_decryption p)])%list |},
   Ok tt).
Proof.
  intros Hp Hg Hv. rewrite (SSMParameter_refresh_standalone self p env s Hp Hg).
  cbv zeta. rewrite Hv. destruct p as [r n v0 w gr]. simpl in Hg. subst gr.
  reflexivity.
Qed.

Lemma SSMParameter_refresh_standalone_Ok_witness :
  let p := example_parameter "C" PNone 0 None in
  SSMParameter_refresh 3%nat example_env example_state =
  ({| parameters :=
        <[3%nat := {| p_refreshable :=
                       {| _last_refresh_time := Some (utcnow example_env);
                          _max_age := _max_age (p_refreshable p);
                          _max_age_delta := _max_age_delta (p_refreshable p) |};
                     _name := _name p; _value := Some "vc";
                     _with_decryption := _with_decryption p;
                     _group := None |}]> (parameters example_state);
      groups := groups example_state; next_loc := next_loc example_state;
      calls := (calls example_state
                ++ [GetParameter (_name p) (_with_decryption p)])%list |},
   Ok tt).
Proof.
  apply (SSMParameter_refresh_standalone_Ok 3%nat
           (example_parameter "C" PNone 0 None) "vc");
    reflexivity.
Defined.

(** [refresh] on a parameter that belongs to no group, when the client
    raises, raises after that one request and leaves the parameter as
    it was, cached value and refresh time included.  A [ClientError]
    with the code [ParameterNotFound] is raised as [InvalidParam] with
    the parameter's name; any other exception is raised as it is. *)
Theorem SSMParameter_refresh_standalone_Raise self p e env s :
  parameters s !! self = Some p -> _group p = None ->
  get_parameter (ssm_client env) (_name p) (_with_decryption p) = Raise e ->
  exists e',
    SSMParameter_refresh self env s =
    ({| parameters := parameters s; groups := groups s; next_loc := next_loc s;
        calls := (calls s ++ [GetParameter (_name p) (_with_decryption p)])%list |},
     Raise e') /\
    (e = ClientError "ParameterNotFound" -> e' = InvalidParam (_name p)) /\
    (e <> ClientError "ParameterNotFound" -> e' = e).
Proof.
  intros Hp Hg He. rewrite (SSMParameter_refresh_standalone self p env s Hp Hg).
  simpl. rewrite He. eexists. split; [reflexivity|]. apply reraised_cases.
Qed.

Lemma SSMParameter_refresh_standalone_Raise_witness :
  let p := example_parameter "E" PNone 0 None in
  let e := ClientError "ParameterNotFound" in
  exists e',
    SSMParameter_refresh 5%nat example_env example_state =
    ({| parameters := parameters example_state;
        groups := groups example_state;
        next_loc := next_loc example_state;
        calls := (calls example_state
                  ++ [GetParameter (_name p) (_with_decryption p)])%list |},
     Raise e') /\
    (e = ClientError "ParameterNotFound" -> e' = InvalidParam (_name p)) /\
    (e <> ClientError "ParameterNotFound" -> e' = e).
Proof.
  apply (SSMParameter_refresh_standalone_Raise 5%nat
           (example_parameter "E" PNone 0 None));
    reflexivity.
Defined.

(** ** The property [value] *)

Lemma SSMParameter_value_run self p v env s :
  parameters s !! self = Some p -> _value p = Some v ->
  SSMParameter_value self env s =
  match Refreshable__should_refresh (p_refreshable p) (utcnow env) with
  | Ok false => (s, Ok (Some v))
  | Ok true =>
      (SSMParameter_refresh self ;;;
       p' <-- lookup_parameter self ;; ret (_value p')) env s
  | Raise e => (s, Raise e)
  | Undef => (s, Undef)
  end.
Proof.
  intros Hp Hv.
  unfold SSMParameter_value, bind at 1, lookup_parameter. rewrite Hp, Hv.
  unfold bind at 1, SSMParameter__should_refresh, bind at 1, lookup_parameter.
  rewrite Hp. unfold bind at 1, ask, lift.
  destruct (Refreshable__should_refresh _ _) as [[]| |]; try reflexivity.
  unfold bind, ret. rewrite Hp, Hv. reflexivity.
Qed.

Lemma SSMParameter_value_due self p env s :
  parameters s !! self = Some p ->
  _value p = None \/
  Refreshable__should_refresh (p_refreshable p) (utcnow env) = Ok true ->
  SSMParameter_value self env s =
  (SSMParameter_refresh self ;;;
   p' <-- lookup_parameter self ;; ret (_value p')) env s.
Proof.
  intros Hp Hdue. destruct (_value p) as [v|] eqn:Hv.
  - destruct Hdue as [?|Hdue]; [discriminate|].
    rewrite (SSMParameter_value_run self p v env s Hp Hv), Hdue. reflexivity.
  - unfold SSMParameter_value, bind at 1, lookup_parameter. rewrite Hp, Hv.
    reflexivity.
Qed.

(** Reading [value] when a value is cached and the parameter's own
    policy says that no refresh is due returns the cached value, sends
    no request and changes nothing. *)
Theorem SSMParameter_value_cached self p v env s :
  parameters s !! self = Some p -> _value p = Some v ->
  Refreshable__should_refresh (p_refreshable p) (utcnow env) = Ok false ->
  SSMParameter_value self env s = (s, Ok (Some v)).
Proof.
  intros Hp Hv Hdue.
  rewrite (SSMParameter_value_run self p v env s Hp Hv), Hdue. reflexivity.
Qed.

Lemma SSMParameter_value_cached_witness :
  let s := fst (SSMParameter_value 4%nat example_env example_state) in
  let env := {| ssm_client := example_client; utcnow := 30001000 |} in
  SSMParameter_value 4%nat env s = (s, Ok (Some "vd")).
Proof.
  apply (SSMParameter_value_cached 4%nat
           (refreshed example_env "vd"
              (example_parameter "D" (PInt 30) 30000000 None)));
    reflexivity.
Defined.

(** Reading [value] of a parameter whose own [max_age] is unset or zero,
    once a value is cached, returns the cached value at any later time,
    sends no request and changes nothing.  This holds for a member of a
    group as well, whatever the [max_age] of its group is. *)
Theorem SSMParameter_value_without_max_age self p v env s :
  parameters s !! self = Some p -> _value p = Some v ->
  truthy (_max_age (p_refreshable p)) = false ->
  SSMParameter_value self env s = (s, Ok (Some v)).
Proof.
  intros Hp Hv Hage.
  rewrite (SSMParameter_value_run self p v env s Hp Hv).
  unfold Refreshable__should_refresh. rewrite Hage. reflexivity.
Qed.

Lemma SSMParameter_value_without_max_age_witness :
  let s := fst (SSMParameter_value 3%nat example_env example_state) in
  let env := {| ssm_client := example_client; utcnow := 86400000000 |} in
  SSMParameter_value 3%nat env s = (s, Ok (Some "vc")).
Proof.
  apply (SSMParameter_value_without_max_age 3%nat
           (refreshed example_env "vc" (example_parameter "C" PNone 0 None)));
    reflexivity.
Defined.

(** Reading [value] of a parameter that belongs to no group, when no
    value is cached yet or the parameter's policy says that a refresh
    is due, fetches: when the client answers, exactly one
    [get_parameter] request is sent, the answer is cached and returned,
    and the time is recorded. *)
Theorem SSMParameter_value_standalone_Ok self p v env s :
  parameters s !! self = Some p -> _group p = None ->
  _value p = None \/
  Refreshable__should_refresh (p_refreshable p) (utcnow env) = Ok true ->
  get_parameter (ssm_client env) (_name p) (_with_decryption p) = Ok v ->
  SSMParameter_value self env s =
  ({| parameters :=
        <[self := set_p_refreshable
                    (mark_refreshed (p_refreshable p) (utcnow env))
                    (set_value (Some v) p)]> (parameters s);
      groups := groups s; next_loc := next_loc s;
      calls := (calls s ++ [GetParameter (_name p) (_with_decryption p)])%list |},
   Ok (Some v)).
Proof.
  intros Hp Hg Hdue Hv. rewrite (SSMParameter_value_due self p env s Hp Hdue).
  unfold bind at 1.
  rewrite (SSMParameter_refresh_standalone self p env s Hp Hg). cbv zeta.
  rewrite Hv. unfold bind, lookup_parameter, ret. simpl.
  rewrite lookup_insert_eq. reflexivity.
Qed.

Lemma SSMParameter_value_standalone_Ok_witness :
  let p := example_parameter "C" PNone 0 None in
  SSMParameter_value 3%nat example_env example_state =
  ({| parameters :=
        <[3%nat := set_p_refreshable
                     (mark_refreshed (p_refreshable p) (utcnow example_env))
                     (set_value (Some "vc") p)]> (parameters example_state);
      groups := groups example_state; next_loc := next_loc example_state;
      calls := (calls example_state
                ++ [GetParameter (_name p) (_with_decryption p)])%list |},
   Ok (Some "vc")).
Proof.
  apply (SSMParameter_value_standalone_Ok 3%nat
           (example_parameter "C" PNone 0 None) "vc");
    [reflexivity | reflexivity | left; reflexivity | reflexivity].
Defined.

(** Reading [value] of a parameter that belongs to no group, when a
    fetch is due and the client raises, raises ([InvalidParam] for the
    code [ParameterNotFound], the client's exception otherwise) instead
    of returning the value cached before, and leaves the parameter as
    it was. *)
Theorem SSMParameter_value_standalone_Raise self p e env s :
  parameters s !! self = Some p -> _group p = None ->
  _value p = None \/
  Refreshable__should_refresh (p_refreshable p) (utcnow env) = Ok true ->
  get_parameter (ssm_client env) (_name p) (_with_decryption p) = Raise e ->
  exists e',
    SSMParameter_value self env s =
    ({| parameters := parameters s; groups := groups s; next_loc := next_loc s;
        calls := (calls s ++ [GetParameter (_name p) (_with_decryption p)])%list |},
     Raise e') /\
    (e = ClientError "ParameterNotFound" -> e' = InvalidParam (_name p)) /\
    (e <> ClientError "ParameterNotFound" -> e' = e).
Proof.
  intros Hp Hg Hdue He. rewrite (SSMParameter_value_due self p env s Hp Hdue).
  unfold bind at 1.
  rewrite (SSMParameter_refresh_standalone self p env s Hp Hg). cbv zeta.
  rewrite He. eexists. split; [reflexivity|]. apply reraised_cases.
Qed.

Lemma SSMParameter_value_standalone_Raise_witness :
  let p := example_parameter "E" PNone 0 None in
  let e := ClientError "ParameterNotFound" in
  exists e',
    SSMParameter_value 5%nat example_env example_state =
    ({| parameters := parameters example_state;
        groups := groups example_state;
        next_loc := next_loc example_state;
        calls := (calls example_state
                  ++ [GetParameter (_name p) (_with_decryption p)])%list |},
     Raise e') /\
    (e = ClientError "ParameterNotFound" -> e' = InvalidParam (_name p)) /\
    (e <> ClientError "ParameterNotFound" -> e' = e).
Proof.
  apply (SSMParameter_value_standalone_Raise 5%nat
           (example_parameter "E" PNone 0 None));
    [reflexivity | reflexivity | left; reflexivity | reflexivity].
Defined.

(** Reading [value] of a registered member of a well-formed group, when
    a fetch is due, refreshes the whole group.  Against a store of
    values it returns the member's value in the store when the store
    knows every name of the group; when some name of the group is
    unknown it raises [InvalidParam] with the unknown names, also when
    the member itself is known. *)
Theorem SSMParameter_value_grouped remote member p self g env s :
  answers remote env -> parameters s !! member = Some p ->
  _group p = Some self -> groups s !! self = Some g -> group_wf s g ->
  (_name p, member) ∈ _parameters g ->
  _value p = None \/
  Refreshable__should_refresh (p_refreshable p) (utcnow env) = Ok true ->
  snd (SSMParameter_value member env s) =
  match filter (fun n => remote n = None) (map fst (_parameters g)) with
  | [] => Ok (remote (_name p))
  | names => Raise (InvalidParam (String.concat "," names))
  end.
Proof.
  intros Hclient Hp Hgrp Hg Hwf Hin Hdue.
  rewrite (SSMParameter_value_due member p env s Hp Hdue).
  destruct (SSMParameter_refresh_grouped remote member p self g env s
              Hclient Hp Hgrp Hg Hwf) as (s' & _ & Hm & H).
  unfold invalid_names_of in *.
  destruct (filter _ _) as [|n names] eqn:Hinv.
  - destruct H as (p' & Hp' & H). rewrite (bind_Ok _ _ _ _ _ _ H).
    unfold bind, lookup_parameter, ret. simpl.
    rewrite lookup_insert_eq. simpl. f_equal.
    specialize (Hm member). rewrite Hp', Hp in Hm. simpl in Hm.
    injection Hm as ->. unfold value_after_refresh.
    rewrite decide_True by exact Hin. unfold refreshed_value.
    destruct (remote (_name p)) as [v|] eqn:Hr; [reflexivity|].
    exfalso. assert (Hx : _name p ∈ filter (fun n => remote n = None)
                                      (map fst (_parameters g))).
    { apply list_elem_of_filter. split; [exact Hr|].
      apply (list_elem_of_fmap_2 fst) in Hin. exact Hin. }
    rewrite Hinv in Hx. apply elem_of_nil in Hx. exact Hx.
  - rewrite (bind_Raise _ _ _ _ _ _ H). reflexivity.
Qed.

Lemma SSMParameter_value_grouped_witness :
  let p := example_parameter "A" PNone 0 (Some 0%nat) in
  snd (SSMParameter_value 1%nat example_env example_state) =
  match filter (fun n => example_remote n = None)
               (map fst (_parameters example_group)) with
  | [] => Ok (example_remote (_name p))
  | names => Raise (InvalidParam (String.concat "," names))
  end.
Proof.
  apply (SSMParameter_value_grouped example_remote 1%nat
           (example_parameter "A" PNone 0 (Some 0%nat)) 0%nat example_group).
  - intros names with_decryption. reflexivity.
  - reflexivity.
  - reflexivity.
  - reflexivity.
  - apply (bool_decide_unpack _). vm_compute. exact I.
  - apply (bool_decide_unpack _). vm_compute. exact I.
  - left. reflexivity.
Defined.

(** Reading [value] when a value is cached, the parameter has a
    [max_age], and the time of its last refresh plus [max_age] lies
    beyond [datetime.max], raises [OverflowError] from the comparison in
    [_should_refresh]: the cached value is not returned and no request
    is sent. *)
Theorem SSMParameter_value_overflow self p v t env s :
  parameters s !! self = Some p -> _value p = Some v ->
  truthy (_max_age (p_refreshable p)) = true ->
  _last_refresh_time (p_refreshable p) = Some t ->
  Datetime.datetime_max < t + _max_age_delta (p_refreshable p) ->
  SSMParameter_value self env s = (s, Raise OverflowError).
Proof.
  intros Hp Hv Hage Ht Hmax.
  rewrite (SSMParameter_value_run self p v env s Hp Hv).
  unfold Refreshable__should_refresh, Datetime.add. rewrite Hage, Ht. simpl.
  destruct (Z.leb_spec (t + _max_age_delta (p_refreshable p))
              Datetime.datetime_max); [lia|].
  rewrite andb_false_r. reflexivity.
Qed.

Lemma SSMParameter_value_overflow_witness :
  let s0 := fst (new_SSMParameter [PStr "C"; PInt 1000000000000] ∅ example_env
                   empty_state) in
  let s := fst (SSMParameter_value 0%nat example_env s0) in
  SSMParameter_value 0%nat example_env s = (s, Raise OverflowError).
Proof.
  apply (SSMParameter_value_overflow 0%nat
           (refreshed example_env "vc"
              (example_parameter "C" (PInt 1000000000000)
                 1000000000000000000 None))
           "vc" 1000);
    [reflexivity | reflexivity | reflexivity | reflexivity
    | vm_compute; reflexivity].
Defined.

(** ** [refresh_on_error] *)

Section RefreshOnErrorFacts.

Context {U R : Type}.
Variables (self : loc) (error_class : exn -> bool)
          (error_callback : option (M (State * U) unit))
          (retry_argument : string)
          (func : list pyval -> gmap string pyval -> M (State * U) R)
          (args : list pyval) (kwargs : gmap string pyval)
          (env : Env) (st : State * U) (trace : list event).

Lemma first_call_run :
  (emit (CallFunc args kwargs) ;;; run_user (func args kwargs)) env (st, trace)
  = let (st1, r) := func args kwargs env st in
    ((st1, (trace ++ [CallFunc args kwargs])%list), r).
Proof.
  unfold bind, emit, run_user. simpl.
  destruct (func args kwargs env st) as [st1 [r|e|]]; reflexivity.
Qed.

Lemma handler_run st1 e :
  func args kwargs env st = (st1, Raise e) -> error_class e = true ->
  SSMParameter_refresh_on_error self error_class error_callback retry_argument
    func args kwargs env (st, trace)
  = (emit (ForceRefresh self) ;;;
     run_user (run_cache (SSMParameter_refresh self)) ;;;
     match error_callback with
     | Some callback => emit CallCallback ;;; run_user callback
     | None => ret tt
     end ;;;
     emit (CallFunc args (<[retry_argument := PBool true]> kwargs)) ;;;
     run_user (func args (<[retry_argument := PBool true]> kwargs)))
      env (st1, (trace ++ [CallFunc args kwargs])%list).
Proof.
  intros Hf He. unfold SSMParameter_refresh_on_error, try_except.
  rewrite first_call_run, Hf, He. reflexivity.
Qed.

(** When the wrapped function returns, the wrapper returns its result
    after this one call, with the arguments as given: nothing is
    refreshed, the callback is not called and no retry argument is
    added. *)
Theorem refresh_on_error_returns st1 r :
  func args kwargs env st = (st1, Ok r) ->
  SSMParameter_refresh_on_error self error_class error_callback retry_argument
    func args kwargs env (st, trace)
  = ((st1, (trace ++ [CallFunc args kwargs])%list), Ok r).
Proof.
  intros Hf. unfold SSMParameter_refresh_on_error, try_except.
  rewrite first_call_run, Hf. reflexivity.
Qed.

(** When the wrapped function raises an exception that is not an
    instance of [error_class], the wrapper raises it after this one
    call: nothing is refreshed, the callback is not called and the
    function is not called again. *)
Theorem refresh_on_error_other_error st1 e :
  func args kwargs env st = (st1, Raise e) -> error_class e = false ->
  SSMParameter_refresh_on_error self error_class error_callback retry_argument
    func args kwargs env (st, trace)
  = ((st1, (trace ++ [CallFunc args kwargs])%list), Raise e).
Proof.
  intros Hf He. unfold SSMParameter_refresh_on_error, try_except.
  rewrite first_call_run, Hf, He. reflexivity.
Qed.

(** When the wrapped function raises an instance of [error_class], and
    the refresh and the callback return, the wrapper refreshes the
    parameter, then calls the callback if there is one, then calls the
    function once more, with the same positional arguments and with the
    keyword arguments in which the retry argument is set to [True],
    over a value the caller may have given it.  The outcome of that
    second call, a result or an exception, is the outcome of the
    wrapper. *)
Theorem refresh_on_error_retries st1 e s2 st3 :
  func args kwargs env st = (st1, Raise e) -> error_class e = true ->
  SSMParameter_refresh self env (fst st1) = (s2, Ok tt) ->
  match error_callback with
  | Some callback => callback env (s2, snd st1) = (st3, Ok tt)
  | None => st3 = (s2, snd st1)
  end ->
  let kwargs' := <[retry_argument := PBool true]> kwargs in
  SSMParameter_refresh_on_error self error_class error_callback retry_argument
    func args kwargs env (st, trace)
  = let (st4, r) := func args kwargs' env st3 in
    ((st4,
      (trace ++ [CallFunc args kwargs; ForceRefresh self]
             ++ match error_callback with
                | Some _ => [CallCallback]
                | None => []
                end
             ++ [CallFunc args kwargs'])%list), r).
Proof.
  intros Hf He Hr Hcb kwargs'. rewrite (handler_run st1 e Hf He).
  unfold bind, emit, run_user, run_cache. simpl. rewrite Hr. simpl.
  destruct error_callback as [callback|]; simpl.
  - rewrite Hcb. simpl.
    destruct (func args _ env st3) as [st4 [r|e'|]];
      rewrite <- !app_assoc; reflexivity.
  - subst st3. unfold ret. simpl.
    destruct (func args _ env (s2, snd st1)) as [st4 [r|e'|]];
      rewrite <- !app_assoc; reflexivity.
Qed.

(** When the wrapped function raises an instance of [error_class] and
    the refresh raises, the wrapper raises the exception of the
    refresh: the callback is not called and the function is not called
    again. *)
Theorem refresh_on_error_refresh_fails st1 e s2 e2 :
  func args kwargs env st = (st1, Raise e) -> error_class e = true ->
  SSMParameter_refresh self env (fst st1) = (s2, Raise e2) ->
  SSMParameter_refresh_on_error self error_class error_callback retry_argument
    func args kwargs env (st, trace)
  = (((s2, snd st1), (trace ++ [CallFunc args kwargs; ForceRefresh self])%list),
     Raise e2).
Proof.
  intros Hf He Hr. rewrite (handler_run st1 e Hf He).
  unfold bind, emit, run_user, run_cache. simpl. rewrite Hr. simpl.
  rewrite <- app_assoc. reflexivity.
Qed.

End RefreshOnErrorFacts.

Lemma refresh_on_error_returns_witness :
  SSMParameter_refresh_on_error 3%nat Exception None default_retry_argument
    (fun _ _ => ret "done") [PInt 1] ∅ example_env ((example_state, tt), [])
  = (((example_state, tt), ([] ++ [CallFunc [PInt 1] ∅])%list), Ok "done").
Proof.
  apply (refresh_on_error_returns (U := unit) (R := string)). reflexivity.
Defined.

Lemma refresh_on_error_other_error_witness :
  SSMParameter_refresh_on_error 3%nat
    (fun e => match e with InvalidParam _ => true | _ => false end)
    None default_retry_argument example_func [PInt 1] ∅ example_env
    ((example_state, tt), [])
  = (((example_state, tt), ([] ++ [CallFunc [PInt 1] ∅])%list),
     Raise (OtherError "stale")).
Proof.
  apply (refresh_on_error_other_error (U := unit) (R := string));
    reflexivity.
Defined.

Lemma refresh_on_error_retries_witness :
  let s2 := fst (SSMParameter_refresh 3%nat example_env example_state) in
  let kwargs' := <[default_retry_argument := PBool true]>
                   ({["is_retry" := PBool false]} : gmap string pyval) in
  SSMParameter_refresh_on_error 3%nat Exception (Some (ret tt))
    default_retry_argument example_func [PInt 1]
    {["is_retry" := PBool false]} example_env ((example_state, tt), [])
  = let (st4, r) := example_func [PInt 1] kwargs' example_env (s2, tt) in
    ((st4,
      ([] ++ [CallFunc [PInt 1] {["is_retry" := PBool false]};
              ForceRefresh 3%nat]
          ++ [CallCallback]
          ++ [CallFunc [PInt 1] kwargs'])%list), r).
Proof.
  apply (refresh_on_error_retries (U := unit) (R := string) 3%nat Exception
           (Some (ret tt)) default_retry_argument example_func [PInt 1]
           {["is_retry" := PBool false]} example_env (example_state, tt) []
           (example_state, tt) (OtherError "stale")
           (fst (SSMParameter_refresh 3%nat example_env example_state))
           (fst (SSMParameter_refresh 3%nat example_env example_state), tt));
    reflexivity.
Defined.

Lemma refresh_on_error_refresh_fails_witness :
  let s2 := fst (SSMParameter_refresh 5%nat example_env example_state) in
  SSMParameter_refresh_on_error 5%nat Exception None default_retry_argument
    example_func [] ∅ example_env ((example_state, tt), [])
  = (((s2, tt), ([] ++ [CallFunc [] ∅; ForceRefresh 5%nat])%list),
     Raise (InvalidParam "E")).
Proof.
  apply (refresh_on_error_refresh_fails (U := unit) (R := string) 5%nat
           Exception None default_retry_argument example_func [] ∅
           example_env (example_state, tt) [] (example_state, tt)
           (OtherError "stale"));
    reflexivity.
Defined.

(** * The claims on refreshing, construction and the retry wrapper *)

(** ** C2: when the refresh time is recorded *)

(** [_refresh] on a parameter changes no refresh policy. *)
Lemma SSMParameter__refresh_policy self env s (l : loc) :
  p_refreshable <$> parameters (fst (SSMParameter__refresh self env s)) !! l
  = p_refreshable <$> parameters s !! l.
Proof.
  unfold SSMParameter__refresh, bind at 1, lookup_parameter.
  destruct (parameters s !! self) as [p|] eqn:Hp; [|reflexivity].
  destruct (_group p) as [g|].
  - pose proof (SSMParameterGroup_refresh_shape g env s) as (_ & H & _).
    specialize (H l). cbv zeta in H.
    destruct (parameters s !! l) as [q|],
      (parameters (fst (SSMParameterGroup_refresh g env s)) !! l) as [q'|];
      try tauto.
    destruct H as [-> _]. reflexivity.
  - unfold try_except_ClientError, bind, call_get_parameter, update_parameter.
    destruct (get_parameter _ _ _) as [v|e|]; simpl.
    + rewrite Hp. simpl. destruct (decide (self = l)) as [<-|Hne].
      * rewrite lookup_insert_eq, Hp. reflexivity.
      * rewrite lookup_insert_ne by exact Hne. reflexivity.
    + destruct e; try reflexivity.
      destruct (String.eqb code "ParameterNotFound"); reflexivity.
    + reflexivity.
Qed.

(** [refresh] on a group changes a group only when it returns, and then
    only the refresh time of the group it was called on. *)
Lemma SSMParameterGroup_refresh_groups self env s :
  let (s', r) := SSMParameterGroup_refresh self env s in
  match r with
  | Ok _ =>
      exists g, groups s !! self = Some g /\
        groups s' = <[self := set_g_refreshable
                                (mark_refreshed (g_refreshable g) (utcnow env))
                                g]> (groups s)
  | _ => groups s' = groups s
  end.
Proof.
  pose proof (SSMParameterGroup__refresh_refreshes self env s) as (Hg & _).
  rewrite SSMParameterGroup_refresh_run.
  destruct (SSMParameterGroup__refresh self env s) as [s1 [[]| |]];
    simpl in *; try exact Hg.
  destruct (groups s !! self) as [g|]; [|exact Hg].
  exists g. split; reflexivity.
Qed.

(** [_refresh] on a parameter leaves the groups as they are unless it
    returns. *)
Lemma SSMParameter__refresh_groups self env s :
  let (s', r) := SSMParameter__refresh self env s in
  match r with
  | Ok _ => True
  | _ => groups s' = groups s
  end.
Proof.
  unfold SSMParameter__refresh, bind at 1, lookup_parameter.
  destruct (parameters s !! self) as [p|] eqn:Hp; [|reflexivity].
  destruct (_group p) as [g|].
  - pose proof (SSMParameterGroup_refresh_groups g env s) as H.
    destruct (SSMParameterGroup_refresh g env s) as [s' [[]| |]]; auto.
  - unfold try_except_ClientError, bind, call_get_parameter, update_parameter.
    destruct (get_parameter _ _ _) as [v|e|]; simpl.
    + rewrite Hp. exact I.
    + destruct e; try reflexivity.
      destruct (String.eqb code "ParameterNotFound"); reflexivity.
    + reflexivity.
Qed.

(** C2, as the specification states it, fails whenever a refresh raises:
    the refresh of the example group raises [InvalidParam] for the
    unknown member [B], the refresh of the unknown parameter [E] raises
    [InvalidParam], and the refresh of [C] against a service that is
    down raises the transport error; in all three cases the refresh time
    is still unset after the call. *)
Lemma C2_failed_refresh_counterexample :
  (let (s', r) := SSMParameterGroup_refresh 0%nat example_env example_state in
   r = Raise (InvalidParam "B") /\
   _last_refresh_time <$> (g_refreshable <$> groups s' !! 0%nat) = Some None)
  /\
  (let (s', r) := SSMParameter_refresh 5%nat example_env example_state in
   r = Raise (InvalidParam "E") /\
   _last_refresh_time <$> (p_refreshable <$> parameters s' !! 5%nat)
   = Some None)
  /\
  (let (s', r) := SSMParameter_refresh 3%nat example_down_env example_state in
   r = Raise (ClientError "ServiceUnavailable") /\
   _last_refresh_time <$> (p_refreshable <$> parameters s' !! 3%nat)
   = Some None).
Proof. vm_compute. repeat split. Qed.

(** C2 (amended): [refresh], on a group and on a parameter, records the
    current time as the time of the last refresh when the refresh
    returns, and only then: when it raises, for unknown names or for an
    error of the client, the refresh time and the rest of the policy
    are as they were before the call. *)
Theorem C2_refresh_time_recorded_on_return self env s :
  (let (s', r) := SSMParameterGroup_refresh self env s in
   match r with
   | Ok _ =>
       _last_refresh_time <$> (g_refreshable <$> groups s' !! self)
       = Some (Some (utcnow env))
   | Raise _ => groups s' = groups s
   | Undef => True
   end) /\
  (let (s', r) := SSMParameter_refresh self env s in
   match r with
   | Ok _ =>
       _last_refresh_time <$> (p_refreshable <$> parameters s' !! self)
       = Some (Some (utcnow env))
   | Raise _ =>
       p_refreshable <$> parameters s' !! self
       = p_refreshable <$> parameters s !! self /\
       groups s' = groups s
   | Undef => True
   end).
Proof.
  split.
  - pose proof (SSMParameterGroup_refresh_groups self env s) as H.
    destruct (SSMParameterGroup_refresh self env s) as [s' [[]| |]];
      [|exact H|exact I].
    destruct H as (g & _ & ->). rewrite lookup_insert_eq. reflexivity.
  - pose proof (SSMParameter__refresh_policy self env s self) as Hp.
    pose proof (SSMParameter__refresh_groups self env s) as Hg.
    unfold SSMParameter_refresh, bind at 1.
    destruct (SSMParameter__refresh self env s) as [s1 [[]| |]];
      simpl in Hp; [|auto|exact I].
    unfold bind, ask, update_parameter. simpl.
    destruct (parameters s1 !! self) as [p|]; [|exact I].
    simpl. rewrite lookup_insert_eq. reflexivity.
Qed.

(** ** C3: the policy that [value] consults *)

(** C3: [value] on a member of a group consults the member's own policy,
    not the group's.  A group built with [max_age=10] gets the member
    [A]; the first read, at time 1000, fetches [va].  An hour later the
    policy of the group says that a refresh is due, but the member's own
    [max_age] is [None]: the read returns the cached value, sends no
    request and changes nothing. *)
Lemma C3_group_max_age_not_consulted :
  let s0 := fst ((g <-- new_SSMParameterGroup [PInt 10] ∅ ;;
                  SSMParameterGroup_parameter g [PStr "A"] ∅)
                   example_env empty_state) in
  let s1 := fst (SSMParameter_value 1%nat example_env s0) in
  let later := {| ssm_client := example_client;
                  utcnow := 1000 + 3600 * 1000000 |} in
  snd (SSMParameter_value 1%nat example_env s0) = Ok (Some "va") /\
  calls s1 = [GetParameters ["A"] true] /\
  snd (SSMParameterGroup__should_refresh 0%nat later s1) = Ok true /\
  SSMParameter_value 1%nat later s1 = (s1, Ok (Some "va")).
Proof. vm_compute. repeat split. Qed.

(** ** C9: what construction rejects *)

(** C9: an empty name is rejected at construction and a [max_age]
    keyword is rejected by [parameter], both with the store as it was
    and no request sent; but [parameter("F", 30)], with the [max_age]
    as the second positional argument, is not rejected: it returns a
    new member of the group whose own [max_age] is 30. *)
Lemma C9_positional_max_age_not_rejected :
  new_SSMParameter [PStr ""] ∅ example_env example_state
  = (example_state, Raise (ValueError "Must specify name")) /\
  SSMParameterGroup_parameter 0%nat [PStr "F"] {["max_age" := PInt 30]}
    example_env example_state
  = (example_state,
     Raise (ValueError
              "max_age can't be set individually for grouped parameters")) /\
  (let (s', r) := SSMParameterGroup_parameter 0%nat [PStr "F"; PInt 30] ∅
                    example_env example_state in
   r = Ok 6%nat /\
   _max_age <$> (p_refreshable <$> parameters s' !! 6%nat) = Some (PInt 30) /\
   _group <$> parameters s' !! 6%nat = Some (Some 0%nat) /\
   (_parameters <$> groups s' !! 0%nat)
   = Some [("A", 1%nat); ("B", 2%nat); ("F", 6%nat)]).
Proof. vm_compute. repeat split. Qed.

(** ** C4, C6 and C7: the batched refresh of a group *)

Lemma _batch_lengths {A} (l : list A) (n : nat) (batches : list (list A)) :
  n <> 0%nat -> _batch l n = Ok batches ->
  map length batches
  = map (fun i => Nat.min (i + n) (length l) - i)%nat
        (range_loop (length l) 0 (length l) n).
Proof.
  intros Hn. rewrite _batch_Ok by exact Hn. intros [= <-].
  rewrite map_map. apply map_ext. intros i. rewrite length_slice. lia.
Qed.

Lemma _batch_bounded {A} (l : list A) (n : nat) (batches : list (list A)) :
  n <> 0%nat -> _batch l n = Ok batches ->
  Forall (fun b => (length b <= n)%nat) batches.
Proof.
  intros Hn. rewrite _batch_Ok by exact Hn. intros [= <-].
  apply Forall_fmap, Forall_forall. intros i _. simpl.
  rewrite length_slice. lia.
Qed.

Lemma _batch_length {A} (l : list A) (batches : list (list A)) :
  _batch l 10 = Ok batches ->
  length batches = ((length l + 9) / 10)%nat /\ concat batches = l.
Proof.
  rewrite _batch_Ok by discriminate. intros [= <-]. split.
  - rewrite length_map, range_loop_length by lia. f_equal. lia.
  - rewrite batch_loop_concat by lia. apply drop_0.
Qed.

(** The value that a refresh against a store gives to a registered
    member. *)
Lemma store_value_of_member remote g s (m : gmap loc SSMParameter) k (l : loc) :
  group_wf s g ->
  (forall l : loc,
     _value <$> m !! l = value_after_refresh remote g l <$> parameters s !! l) ->
  (k, l) ∈ _parameters g ->
  _value <$> m !! l
  = match remote k with
    | Some v => Some (Some v)
    | None => _value <$> parameters s !! l
    end.
Proof.
  intros Hwf Hm Hin. rewrite (Hm l).
  destruct (group_wf_lookup s g k l Hwf Hin) as (p & -> & <-). simpl.
  unfold value_after_refresh, refreshed_value.
  rewrite decide_True by exact Hin. destruct (remote (_name p)); reflexivity.
Qed.

(** C4, as the specification states it, fails when a later batch raises:
    in the refresh of the 25 members the service reports [K02] unknown
    in its answer to the first batch and raises on the second batch.
    The refresh then raises the error of the service, not
    [InvalidParam], and the third batch is never requested. *)
Lemma C4_failing_batch_counterexample :
  (InvalidParameters <$>
     match get_parameters (ssm_client example_flaky_env)
             (take 10 example_names) true with
     | Ok response => Some response
     | _ => None
     end) = Some ["K02"] /\
  let (s', r) := SSMParameterGroup_refresh 0%nat example_flaky_env
                   example_big_state in
  r = Raise (ClientError "ThrottlingException") /\
  calls s' = [GetParameters (take 10 example_names) true;
              GetParameters (take 10 (drop 10 example_names)) true].
Proof. vm_compute. repeat split. Qed.

(** C4 (amended): in every refresh of a group in which the remote store
    answers every batch and reports some member keys unknown, every
    member whose key the store returned a value for has that value
    cached, every member whose key is unknown keeps its cached value,
    one request was sent for every batch of ten names, and the refresh
    raises [InvalidParam] with the unknown keys of all batches, joined
    by commas. *)
Theorem C4_partial_update_then_InvalidParam remote self g env s :
  answers remote env -> groups s !! self = Some g -> group_wf s g ->
  filter (fun n => remote n = None) (map fst (_parameters g)) <> [] ->
  let (s', r) := SSMParameterGroup_refresh self env s in
  (forall k (l : loc) v,
     (k, l) ∈ _parameters g -> remote k = Some v ->
     _value <$> parameters s' !! l = Some (Some v)) /\
  (forall k (l : loc),
     (k, l) ∈ _parameters g -> remote k = None ->
     _value <$> parameters s' !! l = _value <$> parameters s !! l) /\
  (exists batches,
     _batch (map fst (_parameters g)) 10 = Ok batches /\
     calls s' = (calls s
                 ++ map (fun b => GetParameters b (any_with_decryption s g))
                        batches)%list) /\
  r = Raise (InvalidParam
               (String.concat ","
                  (filter (fun n => remote n = None)
                          (map fst (_parameters g))))).
Proof.
  intros Hclient Hg Hwf Hinv.
  destruct (SSMParameterGroup_refresh_store remote self g env s Hclient Hg Hwf)
    as (batches & m & Hb & Hm & _ & E).
  rewrite E. cbv zeta. unfold invalid_names_of.
  destruct (filter _ _) as [|n names] eqn:Hf; [contradiction|].
  split; [|split; [|split]].
  - intros k l v Hin Hk. simpl.
    rewrite (store_value_of_member remote g s m k l Hwf Hm Hin), Hk.
    reflexivity.
  - intros k l Hin Hk. simpl.
    rewrite (store_value_of_member remote g s m k l Hwf Hm Hin), Hk.
    reflexivity.
  - exists batches. split; [exact Hb|reflexivity].
  - reflexivity.
Qed.

Lemma C4_partial_update_then_InvalidParam_witness :
  let (s', r) := SSMParameterGroup_refresh 0%nat example_big_env
                   example_big_state in
  (forall k (l : loc) v,
     (k, l) ∈ _parameters example_big_group ->
     example_big_remote k = Some v ->
     _value <$> parameters s' !! l = Some (Some v)) /\
  (forall k (l : loc),
     (k, l) ∈ _parameters example_big_group ->
     example_big_remote k = None ->
     _value <$> parameters s' !! l
     = _value <$> parameters example_big_state !! l) /\
  (exists batches,
     _batch (map fst (_parameters example_big_group)) 10 = Ok batches /\
     calls s' = (calls example_big_state
                 ++ map (fun b =>
                           GetParameters b
                             (any_with_decryption example_big_state
                                example_big_group))
                        batches)%list) /\
  r = Raise (InvalidParam
               (String.concat ","
                  (filter (fun n => example_big_remote n = None)
                          (map fst (_parameters example_big_group))))).
Proof.
  apply (C4_partial_update_then_InvalidParam example_big_remote).
  - intros names with_decryption. reflexivity.
  - reflexivity.
  - apply (bool_decide_unpack _). vm_compute. exact I.
  - vm_compute. discriminate.
Defined.

(** C6, as the specification states it, fails when a request raises:
    the group of 25 members needs three batches, but against a service
    that is down the first request raises, the refresh ends with that
    error, and one request was sent, not three. *)
Lemma C6_failing_request_counterexample :
  groups example_big_state !! 0%nat = Some example_big_group /\
  length (_parameters example_big_group) = 25%nat /\
  let (s', r) := SSMParameterGroup_refresh 0%nat example_down_env
                   example_big_state in
  r = Raise (ClientError "ServiceUnavailable") /\
  calls s' = [GetParameters (take 10 example_names) true].
Proof. vm_compute. repeat split. Qed.

(** C6 (amended): refreshing a group with N members, when the remote
    store answers every request, sends exactly N/10 rounded up
    [get_parameters] requests, one after the other, each with at most
    10 member names, and the batches put end to end are the member
    names in the order of the dict; for 25 members these are 3 requests
    with 10, 10 and 5 names.  Refreshing a group without members sends
    no request and returns, whatever the remote store does. *)
Theorem C6_one_request_per_batch_of_ten self g env s :
  groups s !! self = Some g ->
  (_parameters g = [] ->
   calls (fst (SSMParameterGroup_refresh self env s)) = calls s /\
   snd (SSMParameterGroup_refresh self env s) = Ok tt) /\
  (forall remote,
     answers remote env -> group_wf s g ->
     exists batches : list (list string),
       calls (fst (SSMParameterGroup_refresh self env s))
       = (calls s
          ++ map (fun b => GetParameters b (any_with_decryption s g))
                 batches)%list /\
       length batches = ((length (_parameters g) + 9) / 10)%nat /\
       Forall (fun b => (length b <= 10)%nat) batches /\
       concat batches = map fst (_parameters g) /\
       (length (_parameters g) = 25%nat ->
        map length batches = [10; 10; 5]%nat)).
Proof.
  intros Hg. split.
  - intros Hd.
    unfold SSMParameterGroup_refresh, SSMParameterGroup__refresh, bind,
      lookup_group, ask, update_group.
    rewrite Hg, Hd. simpl. rewrite Hg. split; reflexivity.
  - intros remote Hclient Hwf.
    destruct (SSMParameterGroup_refresh_store remote self g env s
                Hclient Hg Hwf) as (batches & m & Hb & _ & _ & E).
    exists batches. split; [|split; [|split; [|split]]].
    + rewrite E. cbv zeta. destruct (invalid_names_of remote g); reflexivity.
    + destruct (_batch_length _ _ Hb) as [-> _]. rewrite length_map.
      reflexivity.
    + exact (_batch_bounded _ 10 _ ltac:(discriminate) Hb).
    + exact (proj2 (_batch_length _ _ Hb)).
    + intros HN.
      rewrite (_batch_lengths _ 10 _ ltac:(discriminate) Hb), length_map, HN.
      reflexivity.
Qed.

Lemma C6_one_request_per_batch_of_ten_witness :
  exists batches : list (list string),
    calls (fst (SSMParameterGroup_refresh 0%nat example_big_env
                  example_big_state))
    = (calls example_big_state
       ++ map (fun b =>
                 GetParameters b
                   (any_with_decryption example_big_state example_big_group))
              batches)%list /\
    length batches = ((length (_parameters example_big_group) + 9) / 10)%nat /\
    Forall (fun b => (length b <= 10)%nat) batches /\
    concat batches = map fst (_parameters example_big_group) /\
    (length (_parameters example_big_group) = 25%nat ->
     map length batches = [10; 10; 5]%nat).
Proof.
  apply (proj2 (C6_one_request_per_batch_of_ten 0%nat example_big_group
                  example_big_env example_big_state eq_refl)
           example_big_remote).
  - intros names with_decryption. reflexivity.
  - apply (bool_decide_unpack _). vm_compute. exact I.
Defined.

(** C7, as the specification states it, fails for a sibling that the
    remote store does not know, and when the remote store does not
    answer: the refresh of the member [A] leaves the sibling [B] without
    a value and raises [InvalidParam]; against a service that is down,
    the refresh of [B] leaves the sibling [A] without a value. *)
Lemma C7_sibling_not_updated_counterexample :
  (let (s', r) := SSMParameter_refresh 1%nat example_env example_state in
   r = Raise (InvalidParam "B") /\
   _value <$> parameters s' !! 2%nat = Some None) /\
  (let (s', r) := SSMParameter_refresh 2%nat example_down_env example_state in
   r = Raise (ClientError "ServiceUnavailable") /\
   _value <$> parameters s' !! 1%nat = Some None).
Proof. vm_compute. repeat split. Qed.

(** C7 (amended): for a parameter that belongs to a group, [_refresh]
    is the [refresh] of the group, whatever the remote store does.
    When the remote store answers, after [refresh] on the parameter
    every member of the group whose key the store knows has the value
    of the store cached, not only the parameter that was refreshed; a
    member whose key the store does not know keeps its value. *)
Theorem C7_member_refresh_refreshes_group member p self env s :
  parameters s !! member = Some p -> _group p = Some self ->
  SSMParameter__refresh member env s = SSMParameterGroup_refresh self env s /\
  forall remote g,
    answers remote env -> groups s !! self = Some g -> group_wf s g ->
    forall k (l : loc),
      (k, l) ∈ _parameters g ->
      _value <$> parameters (fst (SSMParameter_refresh member env s)) !! l
      = match remote k with
        | Some v => Some (Some v)
        | None => _value <$> parameters s !! l
        end.
Proof.
  intros Hp Hgrp. split.
  - unfold SSMParameter__refresh, bind at 1, lookup_parameter.
    rewrite Hp, Hgrp. reflexivity.
  - intros remote g Hclient Hg Hwf k l Hin.
    destruct (SSMParameter_refresh_grouped remote member p self g env s
                Hclient Hp Hgrp Hg Hwf) as (s' & _ & Hv & H).
    rewrite <- (store_value_of_member remote g s (parameters s') k l Hwf Hv Hin).
    destruct (invalid_names_of remote g) as [|n names].
    + destruct H as (p' & Hp' & ->). simpl.
      destruct (decide (member = l)) as [<-|Hne].
      * rewrite lookup_insert_eq, Hp'. reflexivity.
      * rewrite lookup_insert_ne by exact Hne. reflexivity.
    + rewrite H. reflexivity.
Qed.

Lemma C7_member_refresh_refreshes_group_witness :
  SSMParameter__refresh 2%nat example_env example_state
  = SSMParameterGroup_refresh 0%nat example_env example_state /\
  _value <$> parameters (fst (SSMParameter_refresh 2%nat example_env
                                example_state)) !! 1%nat
  = match example_remote "A" with
    | Some v => Some (Some v)
    | None => _value <$> parameters example_state !! 1%nat
    end.
Proof.
  destruct (C7_member_refresh_refreshes_group 2%nat
              (example_parameter "B" PNone 0 (Some 0%nat)) 0%nat
              example_env example_state eq_refl eq_refl) as [Hd Hv].
  split; [exact Hd|].
  apply (Hv example_remote example_group).
  - intros names with_decryption. reflexivity.
  - reflexivity.
  - apply (bool_decide_unpack _). vm_compute. exact I.
  - apply (bool_decide_unpack _). vm_compute. exact I.
Defined.

(** ** C5: the retry wrapper *)

(** C5, as the specification states it, fails when the forced refresh
    raises: the wrapped function raises, the error matches
    [error_class], and the refresh of the unknown parameter [E] raises
    [InvalidParam].  The wrapper raises that exception: the callback,
    which was supplied, is not called, and the function is not called a
    second time. *)
Lemma C5_failing_refresh_counterexample :
  example_func [] ∅ example_env (example_state, tt)
  = ((example_state, tt), Raise (OtherError "stale")) /\
  Exception (OtherError "stale") = true /\
  SSMParameter_refresh_on_error (U := unit) (R := string) 5%nat Exception
    (Some (ret tt)) default_retry_argument example_func [] ∅ example_env
    ((example_state, tt), [])
  = (((fst (SSMParameter_refresh 5%nat example_env example_state), tt),
      [CallFunc [] ∅; ForceRefresh 5%nat]),
     Raise (InvalidParam "E")).
Proof. vm_compute. repeat split. Qed.

Section RetryWrapperClaim.

Context {U R : Type}.
Variables (self : loc) (error_class : exn -> bool)
          (error_callback : option (M (State * U) unit))
          (retry_argument : string)
          (func : list pyval -> gmap string pyval -> M (State * U) R)
          (args : list pyval) (kwargs : gmap string pyval)
          (env : Env) (st : State * U) (trace : list event).

(** C5 (amended): the wrapper first calls the function with the
    original arguments.  If that call returns, or raises an exception
    that does not match [error_class], its outcome is the outcome of the
    wrapper and nothing else happens.  If it raises an exception that
    matches, the wrapper forces one refresh of the parameter; if the
    refresh returns, it calls the callback once, if one was supplied; if
    the callback returns, it calls the function once more, with the
    original positional arguments and the keyword arguments with the
    retry argument set to [True], and the outcome of that call, a
    result or an exception, is the outcome of the wrapper.  An
    exception of the refresh or of the callback is raised by the
    wrapper instead, and the function is not called again.  In every
    case there is at most one refresh, one call of the callback and one
    retry. *)
Theorem C5_refresh_then_callback_then_retry :
  let kwargs' := <[retry_argument := PBool true]> kwargs in
  let wrapped :=
    SSMParameter_refresh_on_error self error_class error_callback
      retry_argument func args kwargs env (st, trace) in
  (forall st1 r,
     func args kwargs env st = (st1, Ok r) ->
     wrapped = ((st1, (trace ++ [CallFunc args kwargs])%list), Ok r)) /\
  (forall st1 e,
     func args kwargs env st = (st1, Raise e) -> error_class e = false ->
     wrapped = ((st1, (trace ++ [CallFunc args kwargs])%list), Raise e)) /\
  (forall st1 e,
     func args kwargs env st = (st1, Raise e) -> error_class e = true ->
     (forall s2 e2,
        SSMParameter_refresh self env (fst st1) = (s2, Raise e2) ->
        wrapped
        = (((s2, snd st1),
            (trace ++ [CallFunc args kwargs; ForceRefresh self])%list),
           Raise e2)) /\
     (forall s2,
        SSMParameter_refresh self env (fst st1) = (s2, Ok tt) ->
        match error_callback with
        | None =>
            wrapped
            = let (st4, r) := func args kwargs' env (s2, snd st1) in
              ((st4,
                (trace ++ [CallFunc args kwargs; ForceRefresh self;
                           CallFunc args kwargs'])%list), r)
        | Some callback =>
            (forall st3,
               callback env (s2, snd st1) = (st3, Ok tt) ->
               wrapped
               = let (st4, r) := func args kwargs' env st3 in
                 ((st4,
                   (trace ++ [CallFunc args kwargs; ForceRefresh self;
                              CallCallback; CallFunc args kwargs'])%list), r))
            /\
            (forall st3 e3,
               callback env (s2, snd st1) = (st3, Raise e3) ->
               wrapped
               = ((st3,
                   (trace ++ [CallFunc args kwargs; ForceRefresh self;
                              CallCallback])%list),
                  Raise e3))
        end)).
Proof.
  cbv zeta. split; [|split].
  - intros st1 r Hf. unfold SSMParameter_refresh_on_error, try_except.
    rewrite first_call_run, Hf. reflexivity.
  - intros st1 e Hf He. unfold SSMParameter_refresh_on_error, try_except.
    rewrite first_call_run, Hf, He. reflexivity.
  - intros st1 e Hf He.
    rewrite (handler_run self error_class error_callback retry_argument
               func args kwargs env st trace st1 e Hf He).
    split.
    + intros s2 e2 Hr. unfold bind, emit, run_user, run_cache. simpl.
      rewrite Hr. simpl. rewrite <- app_assoc. reflexivity.
    + intros s2 Hr. unfold bind, emit, run_user, run_cache. simpl.
      rewrite Hr. simpl. destruct error_callback as [callback|]; simpl.
      * split.
        -- intros st3 Hcb. rewrite Hcb. simpl.
           destruct (func args _ env st3) as [st4 [r|e'|]];
             rewrite <- !app_assoc; reflexivity.
        -- intros st3 e3 Hcb. rewrite Hcb. simpl.
           rewrite <- !app_assoc. reflexivity.
      * unfold ret. simpl.
        destruct (func args _ env (s2, snd st1)) as [st4 [r|e'|]];
          rewrite <- !app_assoc; reflexivity.
Qed.

End RetryWrapperClaim.

Lemma C5_refresh_then_callback_then_retry_witness :
  let s2 := fst (SSMParameter_refresh 3%nat example_env example_state) in
  let kwargs' := <[default_retry_argument := PBool true]>
                   (∅ : gmap string pyval) in
  SSMParameter_refresh_on_error (U := unit) (R := string) 3%nat Exception
    (Some (ret tt)) default_retry_argument example_func [PInt 1] ∅ example_env
    ((example_state, tt), [])
  = let (st4, r) := example_func [PInt 1] kwargs' example_env (s2, tt) in
    ((st4,
      ([] ++ [CallFunc [PInt 1] ∅; ForceRefresh 3%nat; CallCallback;
              CallFunc [PInt 1] kwargs'])%list), r).
Proof.
  destruct (C5_refresh_then_callback_then_retry (U := unit) (R := string)
              3%nat Exception (Some (ret tt)) default_retry_argument
              example_func [PInt 1] ∅ example_env (example_state, tt) [])
    as (_ & _ & H).
  destruct (H (example_state, tt) (OtherError "stale") eq_refl eq_refl)
    as [_ Hretry].
  destruct (Hretry (fst (SSMParameter_refresh 3%nat example_env example_state))
              eq_refl) as [Hok _].
  exact (Hok (fst (SSMParameter_refresh 3%nat example_env example_state), tt)
           eq_refl).
Defined.

(** ** C10: registering a name twice *)

(** One refresh keeps the dict of the group, keeps the group
    well-formed, and leaves an object that the dict does not refer to
    as it is. *)
Lemma refresh_keeps_unreferenced self env s g (old : loc) :
  groups s !! self = Some g -> group_wf s g ->
  old ∉ map snd (_parameters g) ->
  let s' := fst (SSMParameterGroup_refresh self env s) in
  (exists g', groups s' !! self = Some g' /\
              _parameters g' = _parameters g /\ group_wf s' g') /\
  parameters s' !! old = parameters s !! old.
Proof.
  intros Hg [Hnd Hall] Hold.
  pose proof (SSMParameterGroup_refresh_shape self env s) as (_ & Hp & Hgs).
  cbv zeta in *. split.
  - specialize (Hgs self). rewrite Hg in Hgs.
    destruct (groups (fst (SSMParameterGroup_refresh self env s)) !! self)
      as [g'|]; [|discriminate].
    injection Hgs as Hd. exists g'. split; [reflexivity|]. split; [exact Hd|].
    split; rewrite Hd; [exact Hnd|].
    eapply Forall_impl; [exact Hall|]. intros [k l] H. simpl in *.
    specialize (Hp l).
    destruct (parameters s !! l) as [p|],
      (parameters (fst (SSMParameterGroup_refresh self env s)) !! l) as [p'|];
      try tauto; try discriminate.
    destruct Hp as [-> _]. exact H.
  - specialize (Hp old). unfold members in Hp. rewrite Hg in Hp.
    destruct (parameters s !! old) as [p|],
      (parameters (fst (SSMParameterGroup_refresh self env s)) !! old)
        as [p'|]; try tauto.
    destruct Hp as [_ Hp]. rewrite (Hp Hold). reflexivity.
Qed.

(** The same after any number of refreshes. *)
Lemma refreshes_keep_unreferenced self (envs : list Env) s g (old : loc) :
  groups s !! self = Some g -> group_wf s g ->
  old ∉ map snd (_parameters g) ->
  let s' := foldl (fun s env => fst (SSMParameterGroup_refresh self env s))
                  s envs in
  (exists g', groups s' !! self = Some g' /\
              _parameters g' = _parameters g /\ group_wf s' g') /\
  parameters s' !! old = parameters s !! old.
Proof.
  revert s g. induction envs as [|env envs IH]; intros s g Hg Hwf Hold.
  - simpl. split; [|reflexivity]. exists g. auto.
  - simpl.
    destruct (refresh_keeps_unreferenced self env s g old Hg Hwf Hold)
      as [(g1 & Hg1 & Hd1 & Hwf1) Hp1]. cbv zeta in *.
    rewrite <- Hd1 in Hold.
    destruct (IH _ g1 Hg1 Hwf1 Hold) as [(g2 & Hg2 & Hd2 & Hwf2) Hp2].
    cbv zeta in *. split.
    + exists g2. split; [exact Hg2|]. split; [congruence|exact Hwf2].
    + rewrite Hp2. exact Hp1.
Qed.

(** A refresh changes members of the group only. *)
Lemma refresh_changes_members_only self env s g (l : loc) q q' :
  groups s !! self = Some g -> parameters s !! l = Some q ->
  parameters (fst (SSMParameterGroup_refresh self env s)) !! l = Some q' ->
  q' <> q -> l ∈ map snd (_parameters g).
Proof.
  intros Hg Hq Hq' Hne.
  pose proof (SSMParameterGroup_refresh_shape self env s) as (_ & Hp & _).
  specialize (Hp l). cbv zeta in Hp. unfold members in Hp.
  rewrite Hg, Hq, Hq' in Hp. destruct Hp as [_ Hp].
  destruct (decide (l ∈ map snd (_parameters g))) as [?|Hnot]; [assumption|].
  exfalso. apply Hne. apply Hp. exact Hnot.
Qed.

(** C10: on a well-formed store, when [parameter] returns a member
    whose name the group had registered before, for the object [old],
    the dict of the group maps the name to the new object and holds the
    same keys as before, pairwise distinct, so one member for each
    name.  The group no longer refers to [old], which still exists and
    is exactly as it was, its reference to the group included.  After
    any number of later refreshes of the group, against any client,
    [old] is still exactly as it was, and the only object of that name
    that a further refresh can change is the new one. *)
Theorem C10_same_name_replaces_member self g args kwargs env s s1 new pnew
    old pold :
  state_wf s -> groups s !! self = Some g ->
  SSMParameterGroup_parameter self args kwargs env s = (s1, Ok new) ->
  parameters s1 !! new = Some pnew ->
  dict_get (_parameters g) (_name pnew) = Some old ->
  parameters s !! old = Some pold ->
  exists g1,
    groups s1 !! self = Some g1 /\
    dict_get (_parameters g1) (_name pnew) = Some new /\
    map fst (_parameters g1) = map fst (_parameters g) /\
    NoDup (map fst (_parameters g1)) /\
    old <> new /\
    (old ∉ map snd (_parameters g1)) /\
    parameters s1 !! old = Some pold /\
    forall envs : list Env,
      let s2 := foldl (fun s env => fst (SSMParameterGroup_refresh self env s))
                      s1 envs in
      parameters s2 !! old = Some pold /\
      forall env' (l : loc) q q',
        parameters s2 !! l = Some q ->
        parameters (fst (SSMParameterGroup_refresh self env' s2)) !! l
        = Some q' ->
        _name q = _name pnew -> q' <> q -> l = new.
Proof.
  intros Hwf Hg Hcall Hnew Hold Hpold.
  apply SSMParameterGroup_parameter_Ok
    in Hcall as (g0 & p & Hg0 & -> & _ & _ & _ & _ & ->).
  rewrite Hg in Hg0. injection Hg0 as <-.
  simpl in Hnew. rewrite lookup_insert_eq in Hnew. injection Hnew as ->.
  pose proof (state_wf_register s self g pnew Hwf Hg) as Hwf1.
  match type of Hwf1 with state_wf ?st => set (s1 := st) in * end.
  set (g1 := set_parameters
               (dict_set (_name pnew) (next_loc s) (_parameters g)) g).
  assert (Hg1 : groups s1 !! self = Some g1) by apply lookup_insert_eq.
  assert (Hgwf1 : group_wf s1 g1) by exact (proj2 Hwf1 _ _ Hg1).
  pose proof (dict_get_elem_of _ _ _ Hold) as Hin_old.
  assert (Hlt : (old < next_loc s)%nat).
  { apply (state_wf_member_lt s self g old Hwf Hg).
    apply (list_elem_of_fmap_2 snd) in Hin_old. exact Hin_old. }
  assert (Hne : old <> next_loc s) by lia.
  assert (Hin_new : (_name pnew, next_loc s) ∈ _parameters g1).
  { apply dict_get_elem_of. apply dict_get_set_eq. }
  assert (Hnot : old ∉ map snd (_parameters g1)).
  { intros H. apply list_elem_of_fmap in H as [[k' l'] [Hl' H]].
    simpl in Hl'. subst l'.
    pose proof H as H0.
    apply dict_set_elem_of in H0 as [[_ ?]|H0]; [contradiction|].
    destruct (group_wf_lookup s g k' old (proj2 Hwf _ _ Hg) H0)
      as (q & Hq & Hk').
    destruct (group_wf_lookup s g _ old (proj2 Hwf _ _ Hg) Hin_old)
      as (q0 & Hq0 & Hk0).
    rewrite Hq in Hq0. injection Hq0 as <-. rewrite Hk0 in Hk'. subst k'.
    apply Hne. exact (dict_unique _ _ _ _ (proj1 Hgwf1) H Hin_new). }
  assert (Hold1 : parameters s1 !! old = Some pold).
  { unfold s1. simpl. rewrite lookup_insert_ne by congruence. exact Hpold. }
  exists g1. split; [exact Hg1|]. split; [apply dict_get_set_eq|].
  split.
  { unfold g1. simpl. rewrite dict_set_keys, decide_True; [reflexivity|].
    apply (list_elem_of_fmap_2 fst) in Hin_old. exact Hin_old. }
  split; [exact (proj1 Hgwf1)|]. split; [exact Hne|].
  split; [exact Hnot|]. split; [exact Hold1|].
  intros envs.
  destruct (refreshes_keep_unreferenced self envs s1 g1 old Hg1 Hgwf1 Hnot)
    as [(g2 & Hg2 & Hd2 & Hwf2) Hp2].
  cbv zeta in *. clearbody s1.
  split; [rewrite Hp2; exact Hold1|].
  intros env' l q q' Hq Hq' Hname Hchg.
  pose proof (refresh_changes_members_only self env' _ g2 l q q'
                Hg2 Hq Hq' Hchg) as Hl.
  rewrite Hd2 in Hl.
  apply list_elem_of_fmap in Hl as [[k l'] [Hl' Hin]]. simpl in Hl'. subst l'.
  rewrite <- Hd2 in Hin.
  destruct (group_wf_lookup _ g2 k l Hwf2 Hin) as (q0 & Hq0 & Hk).
  rewrite Hq in Hq0. injection Hq0 as <-. rewrite Hname in Hk. subst k.
  rewrite Hd2 in Hin.
  exact (dict_unique _ _ _ _ (proj1 Hgwf1) Hin Hin_new).
Qed.

Lemma C10_same_name_replaces_member_witness :
  let s1 := fst (SSMParameterGroup_parameter 0%nat [PStr "A"] ∅ example_env
                   example_state) in
  let pnew := example_parameter "A" PNone 0 (Some 0%nat) in
  let pold := example_parameter "A" PNone 0 (Some 0%nat) in
  exists g1,
    groups s1 !! 0%nat = Some g1 /\
    dict_get (_parameters g1) (_name pnew) = Some 6%nat /\
    map fst (_parameters g1) = map fst (_parameters example_group) /\
    NoDup (map fst (_parameters g1)) /\
    1%nat <> 6%nat /\
    (1%nat ∉ map snd (_parameters g1)) /\
    parameters s1 !! 1%nat = Some pold /\
    forall envs : list Env,
      let s2 := foldl (fun s env => fst (SSMParameterGroup_refresh 0%nat env s))
                      s1 envs in
      parameters s2 !! 1%nat = Some pold /\
      forall env' (l : loc) q q',
        parameters s2 !! l = Some q ->
        parameters (fst (SSMParameterGroup_refresh 0%nat env' s2)) !! l
        = Some q' ->
        _name q = _name pnew -> q' <> q -> l = 6%nat.
Proof.
  apply (C10_same_name_replaces_member 0%nat example_group [PStr "A"] ∅
           example_env example_state).
  - apply (bool_decide_unpack _). vm_compute. exact I.
  - reflexivity.
  - reflexivity.
  - reflexivity.
  - reflexivity.
  - reflexivity.
Defined.
